(** * The Doorstop document hierarchy ([doorstop/core/processor.py])

    A shallow embedding of class [Node] and of the collaborators it
    talks to, followed by the properties of tree assembly, placement,
    validation, document creation and item linking. *)

From Stdlib Require Import ZArith Ascii String.
From stdpp Require Import base option list strings gmap.

Set Warnings "-register-all".

Local Open Scope string_scope.
Local Open Scope list_scope.
Local Open Scope Z_scope.
Local Open Scope nat_scope.

(** ** Strings *)

(** [str.lower()] is a parameter [lower] of the definitions that call it.
    On ASCII text [str.lower()] turns the letters [A-Z] into [a-z] and
    leaves the rest: [lower_on_ascii] is that function, and stands for
    [str.lower()] in the examples, whose strings are ASCII. *)
Definition lower_ascii (c : ascii) : ascii :=
  let n := N_of_ascii c in
  if ((65 <=? n) && (n <=? 90))%N then ascii_of_N (n + 32) else c.

Fixpoint lower_on_ascii (s : string) : string :=
  match s with
  | EmptyString => EmptyString
  | String c s' => String (lower_ascii c) (lower_on_ascii s')
  end.

(** ** Collaborators: items and documents *)

(** An [Item] object.  [oid] is the identity of the Python object; the
    mutable link set of the item lives in the store below, under that
    identity. *)
Module Item.
Record t : Type := mk
  { oid : nat;
    path : string;
    id : string;
    number : Z }.

#[global] Instance eq_dec : EqDecision t.
Proof. solve_decision. Defined.

(** Modelled from the spec: [Item.add_link], whose class is not part of
    [processor.py]; the spec gives each item a mutable set of outgoing
    links, to which [addLink(parentId)] adds its argument.  [links] maps
    the identity of an item to its link set. *)
Definition add_link (self : t) (item : string) (links : gmap nat (gset string))
  : gmap nat (gset string) :=
  <[oid self := {[item]} ∪ links !!! oid self]> links.
End Item.
Abbreviation Item := Item.t.

(** A [Document] object: the attributes the tree reads ([path], [root],
    [prefix], [parent], with [parent = None] for Python's [None]) and the
    items its iteration yields.  Two records are equal exactly when they
    stand for the same object. *)
Module Document.
Record t : Type := mk
  { path : string;
    root : string;
    prefix : string;
    parent : option string;
    items : list Item }.

#[global] Instance eq_dec : EqDecision t.
Proof. solve_decision. Defined.
End Document.
Abbreviation Document := Document.t.

(** ** Exceptions *)

(** The [DoorstopError]s of this file, one constructor per message
    format, carrying the value put into the format; [external_error] is a
    [DoorstopError] raised by a collaborator. *)
Inductive DoorstopError : Type :=
| no_root_document
| unplaced_document (doc : Document)
| no_parent_for (doc : Document)
| no_matching_prefix (prefix : string)
| no_matching_child_ID (cid : string)
| no_matching_parent_ID (cid : string)
| no_matching_ID (identifier : string)
| external_error (msg : string).

Inductive Exception : Type :=
| Doorstop (error : DoorstopError)
| ValueError
| IndexError.

Inductive outcome (A : Type) : Type :=
| Return (a : A)
| Raise (e : Exception).
Arguments Return {A} a.
Arguments Raise {A} e.

(** ** Python's library *)

(** [list.remove(x)]: drops the first element equal to [x]; [None] is
    Python's [ValueError] when there is none. *)
Fixpoint list_remove (x : Document) (l : list Document) : option (list Document) :=
  match l with
  | [] => None
  | y :: l' =>
      if decide (x = y) then Some l' else (y ::.) <$> list_remove x l'
  end.

(** The file system as the set of the paths that exist; [below path q]
    when [q] is [path] or lies under it.  [os.path.exists] and
    [shutil.rmtree] on that set. *)
Definition below (path q : string) : Prop :=
  q = path \/ String.prefix (path ++ "/")%string q = true.

Definition os_path_exists (path : string) (fs : gset string) : bool :=
  bool_decide (path ∈ fs).

Definition shutil_rmtree (path : string) (fs : gset string) : gset string :=
  filter (fun q => ¬ below path q) fs.

(** ** Opening a file with the default editor *)

(** What [_open] asks of the system: [subprocess.call(args)] or
    [os.startfile(path)]. *)
Inductive system_call : Type :=
| subprocess_call (args : list string)
| os_startfile (path : string).

(** [_open]: the calls it makes, by [sys.platform] and [os.name]. *)
Definition _open (sys_platform os_name : string) (path : string) : list system_call :=
  if String.prefix "darwin" sys_platform then [subprocess_call ["open"; path]]
  else if bool_decide (os_name = "nt") then [os_startfile path]
  else if bool_decide (os_name = "posix") then [subprocess_call ["xdg-open"; path]]
  else [].

(** ** The tree *)

(** A node owns its document and the list of its children.  The [parent]
    attribute of the Python object is set once, in [place], to the node
    whose [children] receives the new node: it is the position in the
    tree. *)
Inductive Node : Type :=
| mkNode (document : Document) (children : list Node).

Definition document (n : Node) : Document :=
  match n with mkNode d _ => d end.

Definition children (n : Node) : list Node :=
  match n with mkNode _ cs => cs end.

Module Node.

(** [Node(doc, parent)]: a node without children. *)
Definition __init__ (doc : Document) : Node := mkNode doc [].

(** [__len__] *)
Fixpoint __len__ (self : Node) : nat :=
  match self with
  | mkNode _ children => 1 + sum_list (map __len__ children)
  end.

(** [__iter__]: the documents in the order the generator yields them. *)
Fixpoint __iter__ (self : Node) : list Document :=
  match self with
  | mkNode document children =>
      document :: concat (map __iter__ children)
  end.

(** [doc.parent == self.document.prefix] *)
Definition parent_is (doc : Document) (prefix : string) : bool :=
  match Document.parent doc with
  | Some p => bool_decide (p = prefix)
  | None => false
  end.

(** [place]: the tree after the call and what the call did. *)
Fixpoint place (self : Node) (doc : Document) : Node * (DoorstopError + unit) :=
  match self with
  | mkNode document children =>
      if parent_is doc (Document.prefix document) then
        (mkNode document (children ++ [__init__ doc]), inr tt)
      else
        let fix for_child (cs : list Node) : list Node * (DoorstopError + unit) :=
          match cs with
          | [] => ([], inl (no_parent_for doc))
          | child :: rest =>
              match place child doc with
              | (child', inl _) =>
                  let (rest', r) := for_child rest in (child' :: rest', r)
              | (child', inr tt) => (child' :: rest, inr tt)
              end
          end in
        let (children', r) := for_child children in
        (mkNode document children', r)
  end.

(** The pass [for doc in list(unplaced)] of [from_list] over the copy
    [snapshot], with the tree and [unplaced] as they stand. *)
Fixpoint for_doc (snapshot : list Document) (tree : Node) (unplaced : list Document)
  : outcome (Node * list Document) :=
  match snapshot with
  | [] => Return (tree, unplaced)
  | doc :: rest =>
      match place tree doc with
      | (tree', inl _) => for_doc rest tree' unplaced
      | (tree', inr tt) =>
          match list_remove doc unplaced with
          | None => Raise ValueError
          | Some unplaced' => for_doc rest tree' unplaced'
          end
      end
  end.

(** [while unplaced: ...]; [None] when [fuel] passes were not enough. *)
Fixpoint while_unplaced (fuel : nat) (tree : Node) (unplaced : list Document)
  : option (outcome Node) :=
  match unplaced with
  | [] => Some (Return tree)
  | _ :: _ =>
      match fuel with
      | O => None
      | S fuel' =>
          let count := length unplaced in
          match for_doc unplaced tree unplaced with
          | Raise e => Some (Raise e)
          | Return (tree', unplaced') =>
              if length unplaced' =? count then
                match unplaced' with
                | doc :: _ => Some (Raise (Doorstop (unplaced_document doc)))
                | [] => Some (Raise IndexError)
                end
              else while_unplaced fuel' tree' unplaced'
          end
      end
  end.

(** The first [doc] of the list with [doc.parent is None]. *)
Definition find_root (docs : list Document) : option Document :=
  find (fun doc => bool_decide (Document.parent doc = None)) docs.

(** [from_list]; every pass that does not raise shortens [unplaced], so
    [length unplaced] passes are enough (see [from_list_total]). *)
Definition from_list_fuel (fuel : nat) (docs : list Document) : option (outcome Node) :=
  match find_root docs with
  | None => Some (Raise (Doorstop no_root_document))
  | Some doc =>
      match list_remove doc docs with
      | None => Some (Raise ValueError)
      | Some unplaced => while_unplaced fuel (__init__ doc) unplaced
      end
  end.

Definition from_list (docs : list Document) : option (outcome Node) :=
  from_list_fuel (length docs) docs.

(** [check]: [document.check()] is the collaborator's; it acts on a
    state of its own and returns or raises.  Next to the result, the
    documents whose [check()] was called, in call order. *)
Section check.
Context {World : Type}.
Variable Document_check : Document -> World -> World * outcome unit.

Fixpoint for_document (docs : list Document) (w : World)
  : World * list Document * outcome unit :=
  match docs with
  | [] => (w, [], Return tt)
  | document :: rest =>
      match Document_check document w with
      | (w', Return _) =>
          let '(w'', called, r) := for_document rest w' in
          (w'', document :: called, r)
      | (w', Raise e) => (w', [document], Raise e)
      end
  end.

Definition check (self : Node) (w : World) : World * list Document * outcome bool :=
  let '(w', called, r) := for_document (__iter__ self) w in
  (w', called, match r with Return _ => Return true | Raise e => Raise e end).
End check.

(** [new]: [Document.new] is the collaborator's; it works on the file
    system and returns the document or raises. *)
Section new.
Variable Document_new :
  string -> string -> string -> option string -> option nat ->
  gset string -> gset string * outcome Document.

Definition new (self : Node) (path prefix : string) (parent : option string)
    (digits : option nat) (fs : gset string)
  : Node * gset string * outcome Document :=
  match Document_new path (Document.root (document self)) prefix parent digits fs with
  | (fs', Raise e) => (self, fs', Raise e)
  | (fs', Return document) =>
      match place self document with
      | (self', inr tt) => (self', fs', Return document)
      | (self', inl error) =>
          let fs'' :=
            if os_path_exists (Document.path document) fs'
            then shutil_rmtree (Document.path document) fs'
            else fs' in
          (self', fs'', Raise (Doorstop error))
      end
  end.
End new.

(** [link]: the link sets of the items, by object identity. *)
Section link.
Variable lower : string -> string.
Variable split_id : string -> outcome (string * Z).

(** The search loop of [link], written there once for the child and
    once for the parent. *)
Fixpoint for_document_item (docs : list Document) (prefix : string) (number : Z)
  : option Item :=
  match docs with
  | [] => None
  | document :: rest =>
      if bool_decide (lower (Document.prefix document) = lower prefix) then
        match find (fun item => bool_decide (Item.number item = number))
                   (Document.items document) with
        | Some item => Some item
        | None => for_document_item rest prefix number
        end
      else for_document_item rest prefix number
  end.

Definition link (self : Node) (cid pid : string) (links : gmap nat (gset string))
  : gmap nat (gset string) * outcome (Item * Item) :=
  match split_id cid with
  | Raise e => (links, Raise e)
  | Return (prefix, number) =>
      match for_document_item (__iter__ self) prefix number with
      | None => (links, Raise (Doorstop (no_matching_child_ID cid)))
      | Some child =>
          match split_id pid with
          | Raise e => (links, Raise e)
          | Return (prefix, number) =>
              match for_document_item (__iter__ self) prefix number with
              | None => (links, Raise (Doorstop (no_matching_parent_ID cid)))
              | Some parent =>
                  (Item.add_link child (Item.id parent) links, Return (child, parent))
              end
          end
      end
  end.
End link.

(** [__str__] and [__repr__]: [str(self.document)] is the collaborator's. *)
Section str.
Variable Document_str : Document -> string.

Fixpoint __str__ (self : Node) : string :=
  match self with
  | mkNode document children =>
      let children := String.concat ", " (map __str__ children) in
      match children with
      | EmptyString => Document_str document
      | _ => (Document_str document ++ " <- [ " ++ children ++ " ]")%string
      end
  end.

Definition __repr__ (self : Node) : string :=
  ("<Node " ++ __str__ self ++ ">")%string.
End str.

(** [__getitem__] *)
Definition __getitem__ (self : Node) (key : Z) : outcome Document :=
  Raise IndexError.

(** [add]: [document.add()] is the collaborator's; it acts on a state of
    its own and returns the new item or raises. *)
Section add.
Context {World : Type}.
Variable lower : string -> string.
Variable Document_add : Document -> World -> World * outcome Item.

Fixpoint add_for_document (docs : list Document) (prefix : string) (w : World)
  : World * outcome Item :=
  match docs with
  | [] => (w, Raise (Doorstop (no_matching_prefix prefix)))
  | document :: rest =>
      if bool_decide (lower (Document.prefix document) = lower prefix)
      then Document_add document w
      else add_for_document rest prefix w
  end.

Definition add (self : Node) (prefix : string) (w : World) : World * outcome Item :=
  add_for_document (__iter__ self) prefix w.
End add.

(** [edit]: the system calls made, and the result. *)
Section edit.
Variable lower : string -> string.
Variable split_id : string -> outcome (string * Z).
Variables sys_platform os_name : string.

(** The search loop of [edit]: the item found, or [None] when the loop
    is left by [break] or runs out. *)
Fixpoint edit_for_document (docs : list Document) (prefix : string) (number : Z)
  : option Item :=
  match docs with
  | [] => None
  | document :: rest =>
      if bool_decide (lower (Document.prefix document) = lower prefix) then
        find (fun item => bool_decide (Item.number item = number))
             (Document.items document)
      else edit_for_document rest prefix number
  end.

Definition edit (self : Node) (identifier : string) (launch : bool)
  : list system_call * outcome unit :=
  match split_id identifier with
  | Raise e => ([], Raise e)
  | Return (prefix, number) =>
      match edit_for_document (__iter__ self) prefix number with
      | Some item =>
          ((if launch then _open sys_platform os_name (Item.path item) else []),
           Return tt)
      | None => ([], Raise (Doorstop (no_matching_ID identifier)))
      end
  end.
End edit.

End Node.

(** ** Building the tree of a working copy *)

(** [vcs.find_root], [os.walk] (its directory path and directory names),
    [os.path.join], the constructor [Document(path, root)] and the
    attribute [document.skip] are the collaborators'. *)
Section build.
Variable vcs_find_root : string -> outcome string.
Variable os_walk : string -> list (string * list string).
Variable os_path_join : string -> string -> string.
Variable Document_init : string -> string -> outcome Document.
Variable Document_skip : Document -> bool.

(** [_add_document_from_path]: the list [documents] after the call. *)
Definition _add_document_from_path (path root : string) (documents : list Document)
  : outcome (list Document) :=
  match Document_init path root with
  | Raise (Doorstop _) => Return documents
  | Raise e => Raise e
  | Return document =>
      if Document_skip document then Return documents
      else Return (documents ++ [document])
  end.

(** [for dirname in dirnames] *)
Fixpoint for_dirname (dirpath : string) (dirnames : list string) (root : string)
    (documents : list Document) : outcome (list Document) :=
  match dirnames with
  | [] => Return documents
  | dirname :: rest =>
      let path := os_path_join dirpath dirname in
      match _add_document_from_path path root documents with
      | Raise e => Raise e
      | Return documents' => for_dirname dirpath rest root documents'
      end
  end.

(** [for dirpath, dirnames, _ in os.walk(root)] *)
Fixpoint for_dirpath (walk : list (string * list string)) (root : string)
    (documents : list Document) : outcome (list Document) :=
  match walk with
  | [] => Return documents
  | (dirpath, dirnames) :: rest =>
      match for_dirname dirpath dirnames root documents with
      | Raise e => Raise e
      | Return documents' => for_dirpath rest root documents'
      end
  end.

Definition build (cwd : string) : option (outcome Node) :=
  match vcs_find_root cwd with
  | Raise e => Some (Raise e)
  | Return root =>
      match _add_document_from_path root root [] with
      | Raise e => Some (Raise e)
      | Return documents =>
          match for_dirpath (os_walk root) root documents with
          | Raise e => Some (Raise e)
          | Return documents' => Node.from_list documents'
          end
      end
  end.
End build.

(** ** Notions used in the statements *)

(** Tree edges, as (document of the parent node, document of the child
    node), and the same edges by prefix. *)
Fixpoint parent_child (n : Node) : list (Document * Document) :=
  match n with
  | mkNode d cs =>
      concat (map (fun c => (d, document c) :: parent_child c) cs)
  end.

Definition prefix_edges (n : Node) : list (string * string) :=
  map (fun e => (Document.prefix e.1, Document.prefix e.2)) (parent_child n).

(** The edge a placed document stands for: the prefix it names, and its
    own. *)
Definition edge_of (doc : Document) : string * string :=
  (default "" (Document.parent doc), Document.prefix doc).

Definition prefixes (n : Node) : list string :=
  map Document.prefix (Node.__iter__ n).

(** Every child document names the prefix of the document above it. *)
Definition well_linked (n : Node) : Prop :=
  ∀ p c, (p, c) ∈ parent_child n → Document.parent c = Some (Document.prefix p).

(** Comparison of prefixes without regard to case. *)
Definition same_prefix_nocase (lower : string → string) (a b : string) : Prop :=
  lower a = lower b.

(** The inner loop of [place] over the children, by itself. *)
Definition place_for_child (doc : Document) : list Node → list Node * (DoorstopError + unit) :=
  fix for_child (cs : list Node) :=
    match cs with
    | [] => ([], inl (no_parent_for doc))
    | child :: rest =>
        match Node.place child doc with
        | (child', inl _) =>
            let (rest', r) := for_child rest in (child' :: rest', r)
        | (child', inr tt) => (child' :: rest, inr tt)
        end
    end.

(** [doc] can be placed in [tree]: some node carries the prefix it names. *)
Definition placeable (tree : Node) (doc : Document) : Prop :=
  ∃ p, Document.parent doc = Some p ∧ p ∈ prefixes tree.

(** The input lists of [from_list]. *)
Definition is_root (doc : Document) : Prop := Document.parent doc = None.

#[global] Instance is_root_dec doc : Decision (is_root doc).
Proof. unfold is_root. apply _. Defined.

Definition one_root (docs : list Document) : Prop :=
  length (filter is_root docs) = 1.

Definition parents_present (docs : list Document) : Prop :=
  ∀ d p, d ∈ docs → Document.parent d = Some p → p ∈ map Document.prefix docs.

(** [d] names the prefix of [d'], both in the list. *)
Definition references (docs : list Document) (d d' : Document) : Prop :=
  d ∈ docs ∧ d' ∈ docs ∧ Document.parent d = Some (Document.prefix d').

(** No handle reaches itself through one or more references. *)
Definition acyclic (docs : list Document) : Prop :=
  ∀ d, ¬ tc (references docs) d d.

(** A handle is grounded when its references lead to a root. *)
Inductive grounded (docs : list Document) : Document → Prop :=
| grounded_root d :
    d ∈ docs → is_root d → grounded docs d
| grounded_child d d' :
    d ∈ docs → grounded docs d' →
    Document.parent d = Some (Document.prefix d') → grounded docs d.

(** The states [(tree, unplaced)] in which [from_list docs] tests
    [while unplaced]. *)
Inductive loop_state (docs : list Document) : Node → list Document → Prop :=
| loop_enter r unplaced :
    Node.find_root docs = Some r →
    list_remove r docs = Some unplaced →
    loop_state docs (Node.__init__ r) unplaced
| loop_again tree unplaced tree' unplaced' :
    loop_state docs tree unplaced →
    unplaced ≠ [] →
    Node.for_doc unplaced tree unplaced = Return (tree', unplaced') →
    length unplaced' ≠ length unplaced →
    loop_state docs tree' unplaced'.

(** A pass over [unplaced] that removes nothing. *)
Definition stuck (tree : Node) (unplaced : list Document) : Prop :=
  unplaced ≠ [] ∧
  ∃ tree' unplaced',
    Node.for_doc unplaced tree unplaced = Return (tree', unplaced') ∧
    length unplaced' = length unplaced.

(** The item an ID stands for: an item with that number in a document
    with that prefix, case aside. *)
Definition item_of (lower : string → string) (tree : Node) (prefix : string)
    (number : Z) (item : Item) : Prop :=
  ∃ document,
    document ∈ Node.__iter__ tree ∧
    lower (Document.prefix document) = lower prefix ∧
    item ∈ Document.items document ∧
    Item.number item = number.

(** An ID resolves in the tree when it stands for some item. *)
Definition resolvable (lower : string → string) (tree : Node) (prefix : string)
    (number : Z) : Prop :=
  ∃ item, item_of lower tree prefix number item.

(** The checks of a list of documents all return, taking the state of
    the collaborator from [w] to [w']. *)
Inductive checks_pass {World : Type}
    (Document_check : Document → World → World * outcome unit)
  : list Document → World → World → Prop :=
| checks_pass_nil w :
    checks_pass Document_check [] w w
| checks_pass_cons d docs w w1 w2 u :
    Document_check d w = (w1, Return u) →
    checks_pass Document_check docs w1 w2 →
    checks_pass Document_check (d :: docs) w w2.

(** ** Example data *)

Module Examples.

(** An ID splitter: letters, then decimal digits. *)
Definition is_letter (c : ascii) : bool :=
  let n := N_of_ascii c in
  (((65 <=? n) && (n <=? 90)) || ((97 <=? n) && (n <=? 122)))%N.

Definition digit_value (c : ascii) : option Z :=
  let n := N_of_ascii c in
  if ((48 <=? n) && (n <=? 57))%N then Some (Z.of_N (n - 48)) else None.

Fixpoint letters (s : string) : string * string :=
  match s with
  | EmptyString => (EmptyString, EmptyString)
  | String c s' =>
      if is_letter c then let (p, r) := letters s' in (String c p, r)
      else (EmptyString, s)
  end.

Fixpoint decimal (s : string) (acc : Z) : option Z :=
  match s with
  | EmptyString => Some acc
  | String c s' =>
      match digit_value c with
      | Some v => decimal s' (10 * acc + v)%Z
      | None => None
      end
  end.

Definition split_id (text : string) : outcome (string * Z) :=
  match letters text with
  | (EmptyString, _) | (_, EmptyString) =>
      Raise (Doorstop (external_error ("invalid ID: " ++ text)%string))
  | (prefix, digits) =>
      match decimal digits 0 with
      | Some number => Return (prefix, number)
      | None => Raise (Doorstop (external_error ("invalid ID: " ++ text)%string))
      end
  end.

Definition REQ001 : Item := Item.mk 1 "/proj/reqs/REQ001.yml" "REQ001" 1.
Definition REQ002 : Item := Item.mk 2 "/proj/reqs/REQ002.yml" "REQ002" 2.
Definition HLT001 : Item := Item.mk 3 "/proj/hlt/HLT001.yml" "HLT001" 1.

Definition REQ : Document :=
  Document.mk "/proj/reqs" "/proj" "REQ" None [REQ001; REQ002].
Definition HLT : Document :=
  Document.mk "/proj/hlt" "/proj" "HLT" (Some "REQ") [HLT001].
Definition LLT : Document :=
  Document.mk "/proj/llt" "/proj" "LLT" (Some "HLT") [].
(** names its parent in lower case *)
Definition TUT : Document :=
  Document.mk "/proj/tut" "/proj" "TUT" (Some "req") [].
(** names a prefix nobody carries *)
Definition EXT : Document :=
  Document.mk "/proj/ext" "/proj" "EXT" (Some "Z") [].

Definition tree_REQ_HLT : Node := mkNode REQ [mkNode HLT []].
Definition tree_REQ_HLT_LLT : Node := mkNode REQ [mkNode HLT [mkNode LLT []]].
Definition tree_with_EXT : Node :=
  mkNode REQ [mkNode HLT [mkNode EXT []]; mkNode LLT []].

(** A rank that falls along every reference of [[LLT; REQ; HLT]]. *)
Definition rank (d : Document) : nat :=
  match Document.parent d with
  | None => 0
  | Some p => if bool_decide (p = "REQ") then 1 else 2
  end.

(** A [document.check()] that counts its calls and raises for [EXT]. *)
Definition Document_check (d : Document) (calls : nat) : nat * outcome unit :=
  if bool_decide (Document.prefix d = "EXT")
  then (S calls, Raise (Doorstop (external_error "EXT: invalid")))
  else (S calls, Return tt).

(** A [Document.new] that creates the directory and its configuration
    file. *)
Definition Document_new (path root prefix : string) (parent : option string)
    (digits : option nat) (fs : gset string) : gset string * outcome Document :=
  ({[path; (path ++ "/.doorstop.yml")%string]} ∪ fs,
   Return (Document.mk path root prefix parent [])).

End Examples.

(** ** Notions used in the further properties *)

(** The paths [build] tries, in order: the root, then the directories
    that [os.walk] lists. *)
Definition candidate_paths (os_walk : string → list (string * list string))
    (os_path_join : string → string → string) (root : string) : list string :=
  root :: concat (map (fun entry => map (os_path_join entry.1) entry.2) (os_walk root)).

(** The document [build] keeps for a path, if any. *)
Definition loaded (Document_init : string → string → outcome Document)
    (Document_skip : Document → bool) (root path : string) : option Document :=
  match Document_init path root with
  | Return document => if Document_skip document then None else Some document
  | Raise _ => None
  end.

(** [Document(path, root)] returns or raises a [DoorstopError], nothing
    else. *)
Definition loads (Document_init : string → string → outcome Document)
    (root path : string) : Prop :=
  ∀ e, Document_init path root = Raise e → ∃ error, e = Doorstop error.

(** [place] for each handle of a list in turn, as long as it succeeds. *)
Fixpoint place_each (tree : Node) (docs : list Document) : option Node :=
  match docs with
  | [] => Some tree
  | doc :: rest =>
      match Node.place tree doc with
      | (tree', inr tt) => place_each tree' rest
      | (_, inl _) => None
      end
  end.

(** The surroundings of a last child: from the inside out, the document
    of each node above it and the children to its left. *)
Definition plug_frame (frame : Document * list Node) (n : Node) : Node :=
  mkNode frame.1 (frame.2 ++ [n]).

Fixpoint plug (frames : list (Document * list Node)) (n : Node) : Node :=
  match frames with
  | [] => n
  | frame :: frames' => plug frames' (plug_frame frame n)
  end.

Definition frame_documents (frames : list (Document * list Node)) : list Document :=
  concat (map (fun frame => frame.1 :: concat (map Node.__iter__ frame.2)) frames).

(** More example data. *)
Module MoreExamples.

(** Two documents with one prefix; only the second has item 2. *)
Definition REQ_other : Document :=
  Document.mk "/proj/reqs2" "/proj" "req" (Some "REQ")
    [Item.mk 4 "/proj/reqs2/req002.yml" "req002" 2].
Definition REQ_first : Document :=
  Document.mk "/proj/reqs" "/proj" "REQ" None
    [Item.mk 1 "/proj/reqs/REQ001.yml" "REQ001" 1].
Definition tree_two_REQ : Node := mkNode REQ_first [mkNode REQ_other []].

(** A [document.add()] that numbers the new item by the state. *)
Definition Document_add (d : Document) (next : nat) : nat * outcome Item :=
  (S next,
   Return (Item.mk next (Document.path d) (Document.prefix d) (Z.of_nat next))).

(** [str(document)]: the prefix and the path. *)
Definition Document_str (d : Document) : string :=
  (Document.prefix d ++ " (@" ++ Document.path d ++ ")")%string.

(** A working copy with a document at the root, one in [hlt] and a
    skipped one in [tmp]; [docs] holds none. *)
Definition vcs_find_root (cwd : string) : outcome string := Return "/proj".
Definition os_walk (root : string) : list (string * list string) :=
  [(root, ["hlt"; "docs"; "tmp"]); ("/proj/hlt", []); ("/proj/docs", []);
   ("/proj/tmp", [])].
Definition os_path_join (a b : string) : string := (a ++ "/" ++ b)%string.
Definition Document_init (path root : string) : outcome Document :=
  if bool_decide (path = "/proj") then Return (Document.mk path root "REQ" None [])
  else if bool_decide (path = "/proj/hlt")
       then Return (Document.mk path root "HLT" (Some "REQ") [])
  else if bool_decide (path = "/proj/tmp")
       then Return (Document.mk path root "TMP" (Some "REQ") [])
  else Raise (Doorstop (external_error "no .doorstop.yml")).
Definition Document_skip (d : Document) : bool :=
  bool_decide (Document.prefix d = "TMP").

(** A working copy without any document. *)
Definition Document_init_none (path root : string) : outcome Document :=
  Raise (Doorstop (external_error "no .doorstop.yml")).

End MoreExamples.

(** * Properties *)

(** ** Induction over trees *)

Lemma Node_ind_Forall (P : Node → Prop) :
  (∀ d cs, Forall P cs → P (mkNode d cs)) → ∀ n, P n.
Proof.
  intros step. fix IH 1. intros [d cs]. apply step.
  induction cs as [|c cs IHcs]; constructor; [apply IH | exact IHcs].
Qed.

Lemma iter_unfold d cs :
  Node.__iter__ (mkNode d cs) = d :: concat (map Node.__iter__ cs).
Proof. reflexivity. Qed.

Lemma iter_head n : Node.__iter__ n = document n :: tail (Node.__iter__ n).
Proof. by destruct n. Qed.

Lemma document_in_iter n : document n ∈ Node.__iter__ n.
Proof. rewrite iter_head. left. Qed.

Lemma place_unfold d cs doc :
  Node.place (mkNode d cs) doc =
    if Node.parent_is doc (Document.prefix d) then
      (mkNode d (cs ++ [Node.__init__ doc]), inr tt)
    else
      let (cs', r) := place_for_child doc cs in (mkNode d cs', r).
Proof. reflexivity. Qed.

Lemma place_for_child_cons doc c cs :
  place_for_child doc (c :: cs) =
    match Node.place c doc with
    | (c', inl _) => let (cs', r) := place_for_child doc cs in (c' :: cs', r)
    | (c', inr tt) => (c' :: cs, inr tt)
    end.
Proof. reflexivity. Qed.

Lemma parent_is_true doc p :
  Node.parent_is doc p = true ↔ Document.parent doc = Some p.
Proof.
  unfold Node.parent_is. destruct (Document.parent doc) as [q|].
  - rewrite bool_decide_eq_true. split; congruence.
  - split; discriminate.
Qed.

Lemma parent_is_false doc p :
  Node.parent_is doc p = false ↔ Document.parent doc ≠ Some p.
Proof.
  rewrite <- parent_is_true. destruct (Node.parent_is doc p); split; congruence.
Qed.

(** ** Size and iteration *)

Lemma sum_list_length_concat {A} (ls : list (list A)) :
  length (concat ls) = sum_list (map length ls).
Proof.
  induction ls as [|l ls IH]; simpl; [done|]. by rewrite length_app, IH.
Qed.

(** C10: the size of a node is one plus the sizes of its children, and
    it is the number of documents its iteration yields. *)
Theorem len_is_iter_length (n : Node) :
  Node.__len__ n = 1 + sum_list (map Node.__len__ (children n)) ∧
  Node.__len__ n = length (Node.__iter__ n).
Proof.
  split; [by destruct n|].
  induction n as [d cs IH] using Node_ind_Forall.
  rewrite iter_unfold. simpl. f_equal.
  rewrite sum_list_length_concat, map_map.
  induction IH as [|c cs Hc _ IHcs]; simpl; [done|]. by rewrite Hc, IHcs.
Qed.

(** ** [place] *)

Lemma parent_child_unfold d cs :
  parent_child (mkNode d cs) =
    concat (map (fun c => (d, document c) :: parent_child c) cs).
Proof. reflexivity. Qed.

Lemma place_for_child_length doc cs :
  length (place_for_child doc cs).1 = length cs.
Proof.
  induction cs as [|c cs IH]; [done|].
  rewrite place_for_child_cons.
  destruct (Node.place c doc) as [c' [e|[]]]; [|done].
  destruct (place_for_child doc cs) as [cs' r]. simpl in *. by rewrite IH.
Qed.

Lemma elem_of_prefixes_node p d cs :
  p ∈ prefixes (mkNode d cs) ↔ p = Document.prefix d ∨ ∃ c, c ∈ cs ∧ p ∈ prefixes c.
Proof.
  unfold prefixes. rewrite iter_unfold. simpl. rewrite elem_of_cons.
  apply or_iff_compat_l.
  rewrite !list_elem_of_In, in_map_iff. split.
  - intros (x & <- & Hx). apply in_concat in Hx as (l & Hl & Hx).
    apply in_map_iff in Hl as (c & <- & Hc). exists c.
    rewrite !list_elem_of_In. split; [done|]. apply in_map_iff. eauto.
  - intros (c & Hc & Hp). rewrite list_elem_of_In in Hc.
    rewrite list_elem_of_In in Hp. apply in_map_iff in Hp as (x & <- & Hx).
    exists x. split; [done|]. apply in_concat. exists (Node.__iter__ c).
    split; [|done]. apply in_map_iff. eauto.
Qed.

(** A failed [place] leaves the tree as it was, and fails only when no
    node carries the prefix. *)
Lemma place_fail n doc n' e :
  Node.place n doc = (n', inl e) →
  n' = n ∧ e = no_parent_for doc ∧ ¬ placeable n doc.
Proof.
  revert n' e. induction n as [d cs IH] using Node_ind_Forall. intros n' e.
  rewrite place_unfold.
  destruct (Node.parent_is doc (Document.prefix d)) eqn:Hd; [discriminate|].
  apply parent_is_false in Hd.
  destruct (place_for_child doc cs) as [cs' r] eqn:Hcs. intros [= <- ->].
  assert (cs' = cs ∧ e = no_parent_for doc ∧ ∀ c, c ∈ cs → ¬ placeable c doc)
    as (-> & -> & Hno).
  { clear Hd. revert cs' Hcs.
    induction IH as [|c cs Hc _ IHcs]; intros cs'.
    - intros [= <- <-]. split_and!; [done..|]. intros c Hc. by apply elem_of_nil in Hc.
    - rewrite place_for_child_cons.
      destruct (Node.place c doc) as [c' [e'|[]]] eqn:Hplace; [|discriminate].
      destruct (place_for_child doc cs) as [cs'' r'] eqn:Hrest.
      intros [= <- ->].
      destruct (Hc _ _ eq_refl) as (-> & _ & Hnc).
      destruct (IHcs _ eq_refl) as (-> & -> & Hncs).
      split_and!; [done..|].
      intros x [->|Hx]%elem_of_cons; auto. }
  split_and!; [done..|].
  intros (p & Hp & Hin). apply elem_of_prefixes_node in Hin as [->|(c & Hc & Hin)].
  - done.
  - apply (Hno c Hc). by exists p.
Qed.

(** A successful [place] adds one node, for [doc], below a node whose
    document carries the prefix that [doc] names. *)
Lemma place_ok n doc n' :
  Node.place n doc = (n', inr tt) →
  document n' = document n ∧
  Node.__iter__ n' ≡ₚ doc :: Node.__iter__ n ∧
  ∃ p, p ∈ Node.__iter__ n ∧
       Document.parent doc = Some (Document.prefix p) ∧
       parent_child n' ≡ₚ (p, doc) :: parent_child n.
Proof.
  revert n'. induction n as [d cs IH] using Node_ind_Forall. intros n'.
  rewrite place_unfold.
  destruct (Node.parent_is doc (Document.prefix d)) eqn:Hd.
  - apply parent_is_true in Hd. intros [= <-]. split; [done|].
    rewrite !iter_unfold, !parent_child_unfold, !map_app, !concat_app. simpl.
    split.
    + by rewrite (Permutation_app_comm _ [doc]), Permutation_swap.
    + exists d. split_and!; [left|done|].
      by rewrite (Permutation_app_comm _ [_]).
  - destruct (place_for_child doc cs) as [cs' r] eqn:Hcs. intros [= <- ->].
    split; [done|]. rewrite !iter_unfold, !parent_child_unfold.
    assert (concat (map Node.__iter__ cs') ≡ₚ doc :: concat (map Node.__iter__ cs) ∧
            ∃ p, p ∈ concat (map Node.__iter__ cs) ∧
                 Document.parent doc = Some (Document.prefix p) ∧
                 concat (map (fun c => (d, document c) :: parent_child c) cs') ≡ₚ
                 (p, doc) :: concat (map (fun c => (d, document c) :: parent_child c) cs))
      as (Hiter & p & Hp & Hpar & Hpc).
    { clear Hd. revert cs' Hcs.
      induction IH as [|c cs Hc _ IHcs]; intros cs'; [discriminate|].
      rewrite place_for_child_cons.
      destruct (Node.place c doc) as [c' [e'|[]]] eqn:Hplace.
      - destruct (place_for_child doc cs) as [cs'' r'] eqn:Hrest.
        intros [= <- ->]. apply place_fail in Hplace as (-> & _ & _).
        destruct (IHcs _ eq_refl) as (Hiter & p & Hp & Hpar & Hpc). simpl. split.
        + rewrite Hiter. symmetry. apply Permutation_middle.
        + exists p. split_and!; [apply elem_of_app; by right|done|].
          rewrite Hpc. symmetry.
          apply (Permutation_middle ((d, document c) :: parent_child c)).
      - intros [= <-]. destruct (Hc _ eq_refl) as (Hdoc & Hiter & p & Hp & Hpar & Hpc).
        simpl. split.
        + by rewrite Hiter.
        + exists p. split_and!; [apply elem_of_app; by left|done|].
          rewrite Hdoc, Hpc. apply Permutation_swap. }
    split.
    + rewrite Hiter. apply Permutation_swap.
    + exists p. split_and!; [by right|done..].
Qed.

Lemma place_placeable n doc :
  placeable n doc → ∃ n', Node.place n doc = (n', inr tt).
Proof.
  intros Hp. destruct (Node.place n doc) as [n' [e|[]]] eqn:Hplace; [|by eauto].
  by apply place_fail in Hplace as (_ & _ & Hno).
Qed.

Lemma parent_child_children n :
  map snd (parent_child n) = tail (Node.__iter__ n).
Proof.
  induction n as [d cs IH] using Node_ind_Forall.
  rewrite parent_child_unfold, iter_unfold. simpl.
  induction IH as [|c cs Hc _ IHcs]; simpl; [done|].
  rewrite map_app, IHcs, Hc. by rewrite (iter_head c).
Qed.

Lemma parent_child_parents n p c :
  (p, c) ∈ parent_child n → p ∈ Node.__iter__ n.
Proof.
  revert p c. induction n as [d cs IH] using Node_ind_Forall. intros p c.
  rewrite parent_child_unfold, iter_unfold.
  induction IH as [|c0 cs Hc0 _ IHcs]; simpl; [by intros ?%elem_of_nil|].
  rewrite elem_of_cons, elem_of_app.
  intros [[= -> ->]|[Hin|Hin]].
  - left.
  - right. apply elem_of_app. left. by eapply Hc0.
  - apply IHcs in Hin. apply elem_of_cons in Hin as [->|Hin]; [left|].
    right. apply elem_of_app. by right.
Qed.

Lemma place_ok_well_linked n doc n' :
  Node.place n doc = (n', inr tt) → well_linked n → well_linked n'.
Proof.
  intros (_ & _ & p & _ & Hpar & Hpc)%place_ok Hwl q c Hin.
  rewrite Hpc in Hin. apply elem_of_cons in Hin as [[= -> ->]|Hin]; [done|].
  by apply Hwl.
Qed.

Lemma well_linked_init doc : well_linked (Node.__init__ doc).
Proof. intros p c Hin. by apply elem_of_nil in Hin. Qed.

(** ** [list.remove] *)

Lemma list_remove_Some x l l' :
  list_remove x l = Some l' → l ≡ₚ x :: l'.
Proof.
  revert l'. induction l as [|y l IH]; intros l'; simpl; [discriminate|].
  destruct (decide (x = y)) as [->|Hne]; [by intros [= ->]|].
  destruct (list_remove x l) as [k|]; [|discriminate].
  intros [= <-]. rewrite (IH k eq_refl). apply Permutation_swap.
Qed.

Lemma list_remove_elem x l :
  x ∈ l → ∃ l', list_remove x l = Some l'.
Proof.
  induction l as [|y l IH]; simpl; [by intros ?%elem_of_nil|].
  destruct (decide (x = y)) as [->|Hne]; [by eauto|].
  intros [->|Hin]%elem_of_cons; [done|].
  destruct (IH Hin) as [k ->]. by eauto.
Qed.

Lemma list_remove_middle x pre post :
  x ∉ pre → list_remove x (pre ++ x :: post) = Some (pre ++ post).
Proof.
  induction pre as [|y pre IH]; simpl; intros Hx.
  - by rewrite decide_True.
  - apply not_elem_of_cons in Hx as [Hne Hx]. rewrite decide_False by done.
    by rewrite IH.
Qed.

(** ** One pass of [from_list] *)

Lemma for_doc_spec snapshot tree unplaced :
  snapshot ⊆+ unplaced →
  ∃ tree' unplaced',
    Node.for_doc snapshot tree unplaced = Return (tree', unplaced') ∧
    document tree' = document tree ∧
    Node.__iter__ tree' ++ unplaced' ≡ₚ Node.__iter__ tree ++ unplaced ∧
    unplaced' ⊆+ unplaced ∧
    (well_linked tree → well_linked tree') ∧
    ((∃ u, u ∈ snapshot ∧ placeable tree u) → length unplaced' < length unplaced) ∧
    (length unplaced' = length unplaced → tree' = tree ∧ unplaced' = unplaced).
Proof.
  revert tree unplaced.
  induction snapshot as [|doc rest IH]; intros tree unplaced Hsub; simpl.
  - exists tree, unplaced. split_and!; try done.
    intros (u & Hu & _). by apply elem_of_nil in Hu.
  - destruct (Node.place tree doc) as [t1 [e|[]]] eqn:Hplace.
    + apply place_fail in Hplace as (-> & _ & Hno).
      assert (rest ⊆+ unplaced) as Hrest
        by (trans (doc :: rest); [by apply submseteq_cons|done]).
      destruct (IH tree unplaced Hrest)
        as (t' & u' & Hrun & Hdoc & Hperm & Hsub' & Hwl & Hprog & Hstuck).
      exists t', u'. split_and!; try done.
      intros (u & [->|Hu]%elem_of_cons & Hpl); [done|]. apply Hprog. eauto.
    + apply submseteq_cons_l in Hsub as (k & Hk & Hrest).
      assert (doc ∈ unplaced) as Hin by (rewrite Hk; left).
      destruct (list_remove_elem _ _ Hin) as [u1 Hrem]. rewrite Hrem.
      pose proof (list_remove_Some _ _ _ Hrem) as Hu1.
      assert (rest ⊆+ u1) as Hrest1.
      { rewrite Hrest. apply Permutation_submseteq.
        apply (Permutation_cons_inv (a:=doc)). by rewrite <- Hk. }
      destruct (IH t1 u1 Hrest1) as (t' & u' & Hrun & Hdoc & Hperm & Hsub' & Hwl & Hprog & Hstuck).
      pose proof (place_ok _ _ _ Hplace) as (Hdoc1 & Hiter1 & _).
      assert (length unplaced = S (length u1)) as Hlen by (by rewrite Hu1).
      pose proof (submseteq_length _ _ Hsub') as Hle.
      exists t', u'. split_and!.
      * done.
      * congruence.
      * rewrite Hperm, Hiter1, Hu1. simpl. by rewrite <- Permutation_middle.
      * rewrite Hsub', Hu1. by apply submseteq_cons.
      * intros Hw. apply Hwl. by eapply place_ok_well_linked.
      * intros _. lia.
      * intros Heq. lia.
Qed.

Lemma for_doc_refl tree unplaced :
  ∃ tree' unplaced',
    Node.for_doc unplaced tree unplaced = Return (tree', unplaced') ∧
    document tree' = document tree ∧
    Node.__iter__ tree' ++ unplaced' ≡ₚ Node.__iter__ tree ++ unplaced ∧
    unplaced' ⊆+ unplaced ∧
    (well_linked tree → well_linked tree') ∧
    ((∃ u, u ∈ unplaced ∧ placeable tree u) → length unplaced' < length unplaced) ∧
    (length unplaced' = length unplaced → tree' = tree ∧ unplaced' = unplaced).
Proof. by apply for_doc_spec. Qed.

(** ** The root *)

Lemma find_root_Some docs r :
  Node.find_root docs = Some r →
  ∃ pre post, docs = pre ++ r :: post ∧ is_root r ∧ ∀ d, d ∈ pre → ¬ is_root d.
Proof.
  unfold Node.find_root. induction docs as [|d docs IH]; simpl; [discriminate|].
  case_bool_decide as Hd.
  - intros [= ->]. exists [], docs. split_and!; [done..|].
    intros x Hx. by apply elem_of_nil in Hx.
  - intros (pre & post & -> & Hr & Hpre)%IH. exists (d :: pre), post.
    split_and!; [done..|]. intros x [->|Hx]%elem_of_cons; auto.
Qed.

Lemma find_root_None docs :
  Node.find_root docs = None ↔ ∀ d, d ∈ docs → ¬ is_root d.
Proof.
  unfold Node.find_root. induction docs as [|d docs IH]; simpl.
  - split; [|done]. intros _ x Hx. by apply elem_of_nil in Hx.
  - case_bool_decide as Hd.
    + split; [discriminate|]. intros Hno. destruct (Hno d); [left|done].
    + rewrite IH. split.
      * intros Hno x [->|Hx]%elem_of_cons; auto.
      * intros Hno x Hx. apply Hno. by right.
Qed.

Lemma find_root_first pre r post :
  (∀ d, d ∈ pre → ¬ is_root d) → is_root r →
  Node.find_root (pre ++ r :: post) = Some r.
Proof.
  unfold Node.find_root. intros Hpre Hr.
  induction pre as [|d pre IH]; simpl.
  - by rewrite bool_decide_eq_true_2.
  - rewrite bool_decide_eq_false_2 by (apply Hpre; left).
    apply IH. intros x Hx. apply Hpre. by right.
Qed.

(** ** The loop of [from_list] *)

Lemma while_unplaced_cons fuel tree u rest :
  Node.while_unplaced (S fuel) tree (u :: rest) =
    match Node.for_doc (u :: rest) tree (u :: rest) with
    | Raise e => Some (Raise e)
    | Return (tree', unplaced') =>
        if length unplaced' =? length (u :: rest) then
          match unplaced' with
          | doc :: _ => Some (Raise (Doorstop (unplaced_document doc)))
          | [] => Some (Raise IndexError)
          end
        else Node.while_unplaced fuel tree' unplaced'
    end.
Proof. reflexivity. Qed.

Lemma loop_state_inv docs tree unplaced :
  loop_state docs tree unplaced →
  Node.find_root docs = Some (document tree) ∧
  Node.__iter__ tree ++ unplaced ≡ₚ docs ∧
  well_linked tree ∧
  ∃ unplaced0,
    list_remove (document tree) docs = Some unplaced0 ∧ unplaced ⊆+ unplaced0.
Proof.
  induction 1 as [r unplaced Hroot Hrem
                 |tree unplaced tree' unplaced' _ IH Hne Hrun Hlen].
  - split_and!; [done| |apply well_linked_init|by eauto].
    simpl. by rewrite (list_remove_Some _ _ _ Hrem).
  - destruct IH as (Hroot & Hperm & Hwl & u0 & Hrem & Hsub).
    destruct (for_doc_refl tree unplaced)
      as (t' & u' & Hrun' & Hdoc & Hperm' & Hsub' & Hwl' & _).
    rewrite Hrun in Hrun'. injection Hrun' as <- <-.
    rewrite Hdoc. split_and!; [done|by rewrite Hperm'|by auto|].
    exists u0. split; [done|]. by trans unplaced.
Qed.

Lemma loop_state_fuel docs tree unplaced :
  loop_state docs tree unplaced →
  ∃ fuel, length unplaced ≤ fuel ∧
          Node.from_list docs = Node.while_unplaced fuel tree unplaced.
Proof.
  induction 1 as [r unplaced Hroot Hrem
                 |tree unplaced tree' unplaced' _ IH Hne Hrun Hlen].
  - exists (length docs). unfold Node.from_list, Node.from_list_fuel.
    rewrite Hroot, Hrem. split; [|done].
    apply list_remove_Some in Hrem. rewrite Hrem. simpl. lia.
  - destruct IH as (fuel & Hfuel & Heq).
    destruct unplaced as [|u rest]; [done|].
    destruct fuel as [|fuel]; [simpl in Hfuel; lia|].
    exists fuel. rewrite Heq, while_unplaced_cons, Hrun.
    destruct (for_doc_refl tree (u :: rest))
      as (t' & u' & Hrun' & _ & _ & Hsub%submseteq_length & _).
    rewrite Hrun in Hrun'. injection Hrun' as <- <-.
    apply Nat.eqb_neq in Hlen as Hb. rewrite Hb. split; [|done].
    simpl in *. lia.
Qed.

Lemma while_finishes docs fuel tree unplaced :
  loop_state docs tree unplaced → length unplaced ≤ fuel →
  (∃ t, loop_state docs t [] ∧
        Node.while_unplaced fuel tree unplaced = Some (Return t)) ∨
  (∃ t u rest, loop_state docs t (u :: rest) ∧ stuck t (u :: rest) ∧
        Node.while_unplaced fuel tree unplaced =
          Some (Raise (Doorstop (unplaced_document u)))).
Proof.
  revert tree unplaced.
  induction fuel as [|fuel IH]; intros tree [|u rest] Hstate Hfuel.
  - left. by exists tree.
  - simpl in Hfuel. lia.
  - left. by exists tree.
  - rewrite while_unplaced_cons.
    destruct (for_doc_refl tree (u :: rest))
      as (t' & u' & Hrun & _ & _ & Hsub%submseteq_length & _ & _ & Hstuck).
    rewrite Hrun. destruct (Nat.eqb_spec (length u') (length (u :: rest))) as [Heq|Hne].
    + destruct (Hstuck Heq) as [-> ->]. right. exists tree, u, rest.
      split_and!; [done| |done]. split; [done|]. by exists tree, (u :: rest).
    + apply IH.
      * by eapply loop_again.
      * simpl in *. lia.
Qed.

(** [from_list] always comes to an end, in one of three ways. *)
Lemma from_list_cases docs :
  (Node.find_root docs = None ∧
   Node.from_list docs = Some (Raise (Doorstop no_root_document))) ∨
  (∃ t, loop_state docs t [] ∧ Node.from_list docs = Some (Return t)) ∨
  (∃ t u rest, loop_state docs t (u :: rest) ∧ stuck t (u :: rest) ∧
     Node.from_list docs = Some (Raise (Doorstop (unplaced_document u)))).
Proof.
  destruct (Node.find_root docs) as [r|] eqn:Hroot.
  - right. pose proof (find_root_Some _ _ Hroot) as (pre & post & Hdocs & _).
    assert (r ∈ docs) as Hin by (rewrite Hdocs, elem_of_app; right; left).
    destruct (list_remove_elem _ _ Hin) as [unplaced Hrem].
    pose proof (loop_enter _ _ _ Hroot Hrem) as Hstate.
    unfold Node.from_list, Node.from_list_fuel. rewrite Hroot, Hrem.
    apply (while_finishes docs); [done|].
    apply list_remove_Some in Hrem. rewrite Hrem. simpl. lia.
  - left. split; [done|]. unfold Node.from_list, Node.from_list_fuel. by rewrite Hroot.
Qed.

(** In particular the fuel never runs out, and neither [list.remove] nor
    [unplaced[0]] raises. *)
Lemma from_list_total docs :
  ∃ r, Node.from_list docs = Some r ∧ r ≠ Raise ValueError ∧ r ≠ Raise IndexError.
Proof.
  destruct (from_list_cases docs)
    as [[_ ->]|[(t & _ & ->)|(t & u & rest & _ & _ & ->)]]; eauto.
Qed.

(** ** Grounded handles can always be placed *)

Lemma grounded_Permutation docs docs' d :
  docs ≡ₚ docs' → grounded docs d → grounded docs' d.
Proof.
  intros Hperm. induction 1 as [d Hin Hr|d d' Hin _ IH Hpar].
  - apply grounded_root; [by rewrite <- Hperm|done].
  - eapply grounded_child; [by rewrite <- Hperm|done..].
Qed.

Lemma elem_of_prefixes tree d :
  d ∈ Node.__iter__ tree → Document.prefix d ∈ prefixes tree.
Proof. intros Hd. unfold prefixes. apply list_elem_of_In, in_map, list_elem_of_In, Hd. Qed.

Lemma grounded_prefix docs tree unplaced d :
  Node.__iter__ tree ++ unplaced ≡ₚ docs →
  (∀ u, u ∈ unplaced → ¬ is_root u) →
  grounded docs d →
  Document.prefix d ∈ prefixes tree ∨ ∃ u, u ∈ unplaced ∧ placeable tree u.
Proof.
  intros Hperm Hno. induction 1 as [d Hin Hr|d d' Hin _ IH Hpar].
  - rewrite <- Hperm in Hin. apply elem_of_app in Hin as [Hin|Hin].
    + left. by apply elem_of_prefixes.
    + by destruct (Hno d).
  - destruct IH as [Hd'|?]; [|by right].
    rewrite <- Hperm in Hin. apply elem_of_app in Hin as [Hin|Hin].
    + left. by apply elem_of_prefixes.
    + right. exists d. split; [done|]. by exists (Document.prefix d').
Qed.

Lemma grounded_progress docs tree u rest :
  Node.__iter__ tree ++ u :: rest ≡ₚ docs →
  (∀ x, x ∈ u :: rest → ¬ is_root x) →
  (∀ d, d ∈ docs → grounded docs d) →
  ∃ x, x ∈ u :: rest ∧ placeable tree x.
Proof.
  intros Hperm Hno Hall.
  assert (u ∈ docs) as Hu by (rewrite <- Hperm, elem_of_app; right; left).
  destruct (Hall u Hu) as [d _ Hr|d d' Hin Hd' Hpar].
  - destruct (Hno d); [left|done].
  - destruct (grounded_prefix docs tree (d :: rest) d' Hperm Hno Hd') as [Hp|?]; [|done].
    exists d. split; [left|]. by exists (Document.prefix d').
Qed.

Lemma one_root_unplaced docs r unplaced :
  one_root docs → is_root r → docs ≡ₚ r :: unplaced →
  ∀ u, u ∈ unplaced → ¬ is_root u.
Proof.
  unfold one_root. intros Hone Hr Hperm u Hu Hroot.
  rewrite Hperm, filter_cons_True in Hone by done. simpl in Hone.
  assert (u ∈ filter is_root unplaced) as Hin by (by apply list_elem_of_filter).
  destruct (filter is_root unplaced); [by apply elem_of_nil in Hin|done].
Qed.

Lemma one_root_find docs :
  one_root docs → ∃ r, Node.find_root docs = Some r.
Proof.
  unfold one_root. intros Hone.
  destruct (Node.find_root docs) as [r|] eqn:Hroot; [by eauto|].
  rewrite find_root_None in Hroot.
  destruct (filter is_root docs) as [|d l] eqn:Hf; [done|].
  assert (d ∈ filter is_root docs) as [Hd Hin]%list_elem_of_filter
    by (rewrite Hf; left).
  by destruct (Hroot d).
Qed.

(** A list with one root in which every handle is grounded is assembled. *)
Lemma from_list_grounded docs :
  one_root docs → (∀ d, d ∈ docs → grounded docs d) →
  ∃ t, loop_state docs t [] ∧ Node.from_list docs = Some (Return t).
Proof.
  intros Hone Hall.
  destruct (from_list_cases docs)
    as [[Hnone _]|[?|(t & u & rest & Hstate & [_ Hstuck] & _)]]; [|done|].
  - destruct (one_root_find docs Hone) as [r Hr]. congruence.
  - exfalso.
    pose proof (loop_state_inv _ _ _ Hstate) as (Hroot & Hperm & _ & u0 & Hrem & Hsub).
    apply find_root_Some in Hroot as (_ & _ & _ & Hr & _).
    apply list_remove_Some in Hrem.
    assert (∀ x, x ∈ u :: rest → ¬ is_root x) as Hno.
    { intros x Hx. apply (one_root_unplaced docs _ u0 Hone Hr Hrem).
      by eapply elem_of_submseteq. }
    destruct (for_doc_refl t (u :: rest))
      as (t' & u' & Hrun & _ & _ & _ & _ & Hprog & _).
    destruct Hstuck as (t'' & u'' & Hrun' & Hlen).
    rewrite Hrun in Hrun'. injection Hrun' as <- <-.
    pose proof (Hprog (grounded_progress docs t u rest Hperm Hno Hall)). lia.
Qed.

(** What an assembled tree says about its input. *)
Lemma loop_state_done docs t :
  loop_state docs t [] →
  Node.__iter__ t ≡ₚ docs ∧ well_linked t ∧
  Node.find_root docs = Some (document t).
Proof.
  intros (Hroot & Hperm & Hwl & _)%loop_state_inv.
  by rewrite app_nil_r in Hperm.
Qed.

Lemma from_list_Return docs t :
  Node.from_list docs = Some (Return t) → loop_state docs t [].
Proof.
  intros Ht. destruct (from_list_cases docs)
    as [[_ Heq]|[(t' & Hstate & Heq)|(t' & u & rest & _ & _ & Heq)]];
    rewrite Heq in Ht; try discriminate.
  by injection Ht as <-.
Qed.

(** ** Lists without reference cycles *)

Lemma tc_references_in docs d d' :
  tc (references docs) d d' → d ∈ docs.
Proof. by intros [x y [? _]|x y z [? _] _]. Qed.

Lemma acyclic_grounded_aux docs :
  parents_present docs → acyclic docs →
  ∀ n visited d,
    NoDup visited → length docs < n + length visited → d ∈ docs →
    (∀ v, v ∈ visited → tc (references docs) v d) →
    grounded docs d.
Proof.
  intros Hpresent Hacyclic.
  induction n as [|n IH]; intros visited d Hnodup Hlen Hd Hreach.
  - assert (visited ⊆+ docs) as Hsub%submseteq_length; [|simpl in Hlen; lia].
    apply NoDup_submseteq; [done|]. intros v Hv. by eapply tc_references_in, Hreach.
  - destruct (Document.parent d) as [p|] eqn:Hpar; [|by apply grounded_root].
    pose proof (Hpresent d p Hd Hpar) as Hp.
    apply list_elem_of_In, in_map_iff in Hp as (e & <- & He%list_elem_of_In).
    apply (grounded_child docs d e); [done| |done].
    apply (IH (d :: visited)).
    + apply NoDup_cons. split; [|done]. intros Hv. by apply (Hacyclic d), Hreach.
    + simpl. lia.
    + done.
    + intros v [->|Hv]%elem_of_cons.
      * by apply tc_once.
      * eapply tc_r; [by apply Hreach|done].
Qed.

Lemma acyclic_grounded docs d :
  parents_present docs → acyclic docs → d ∈ docs → grounded docs d.
Proof.
  intros Hpresent Hacyclic Hd.
  apply (acyclic_grounded_aux docs Hpresent Hacyclic (S (length docs)) []).
  - constructor.
  - simpl. lia.
  - done.
  - intros v Hv. by apply elem_of_nil in Hv.
Qed.

(** C1: a list with exactly one handle without parent prefix, in which
    every parent prefix named is the prefix of a handle of the list and
    the references have no cycle, is assembled, and the iteration of the
    tree yields the documents of the list, each as often as the list has
    it. *)
Theorem from_list_assembles (docs : list Document) :
  one_root docs → parents_present docs → acyclic docs →
  ∃ t, Node.from_list docs = Some (Return t) ∧ Node.__iter__ t ≡ₚ docs.
Proof.
  intros Hone Hpresent Hacyclic.
  destruct (from_list_grounded docs Hone) as (t & Hstate & Ht).
  - intros d Hd. by apply acyclic_grounded.
  - exists t. split; [done|]. by apply loop_state_done in Hstate as [? _].
Qed.

(** ** An assembled tree grounds its documents *)

Lemma elem_of_children_iter d cs c x :
  c ∈ cs → x ∈ Node.__iter__ c → x ∈ Node.__iter__ (mkNode d cs).
Proof.
  intros Hc Hx. rewrite iter_unfold. right.
  apply list_elem_of_In, in_concat. exists (Node.__iter__ c).
  split; [|by apply list_elem_of_In]. by apply in_map, list_elem_of_In.
Qed.

Lemma elem_of_children_edge d cs c :
  c ∈ cs → (d, document c) ∈ parent_child (mkNode d cs).
Proof.
  intros Hc. rewrite parent_child_unfold.
  apply list_elem_of_In, in_concat. exists ((d, document c) :: parent_child c).
  split; [|by left]. apply in_map_iff. exists c. split; [done|]. by apply list_elem_of_In.
Qed.

Lemma elem_of_children_edges d cs c e :
  c ∈ cs → e ∈ parent_child c → e ∈ parent_child (mkNode d cs).
Proof.
  intros Hc He. rewrite parent_child_unfold.
  apply list_elem_of_In, in_concat. exists ((d, document c) :: parent_child c).
  split; [|right; by apply list_elem_of_In].
  apply in_map_iff. exists c. split; [done|]. by apply list_elem_of_In.
Qed.

Lemma well_linked_grounded docs n :
  well_linked n → (∀ d, d ∈ Node.__iter__ n → d ∈ docs) →
  grounded docs (document n) →
  ∀ d, d ∈ Node.__iter__ n → grounded docs d.
Proof.
  induction n as [d0 cs IH] using Node_ind_Forall. intros Hwl Hin Hroot d.
  rewrite iter_unfold. intros [->|Hd]%elem_of_cons; [done|].
  apply list_elem_of_In, in_concat in Hd as (l & Hl & Hd).
  apply in_map_iff in Hl as (c & <- & Hc%list_elem_of_In).
  apply list_elem_of_In in Hd.
  rewrite Forall_forall in IH. apply (IH c Hc); [| | |done].
  - intros p x Hpx. apply Hwl. by eapply elem_of_children_edges.
  - intros x Hx. apply Hin. by eapply elem_of_children_iter.
  - apply (grounded_child docs _ d0).
    + apply Hin. eapply elem_of_children_iter; [done|]. apply document_in_iter.
    + done.
    + apply Hwl. by apply elem_of_children_edge.
Qed.

Lemma well_linked_tail n d :
  well_linked n → d ∈ tail (Node.__iter__ n) → ¬ is_root d.
Proof.
  intros Hwl Hd. rewrite <- parent_child_children in Hd.
  apply list_elem_of_In, in_map_iff in Hd as ([p c] & <- & Hpc%list_elem_of_In).
  unfold is_root. simpl. by rewrite (Hwl p c Hpc).
Qed.

Lemma assembled_input docs t :
  Node.from_list docs = Some (Return t) →
  Node.__iter__ t ≡ₚ docs ∧ well_linked t ∧ is_root (document t) ∧
  one_root docs ∧ ∀ d, d ∈ docs → grounded docs d.
Proof.
  intros (Hperm & Hwl & Hroot)%from_list_Return%loop_state_done.
  apply find_root_Some in Hroot as (_ & _ & _ & Hr & _).
  split_and!; [done..| |].
  - unfold one_root. rewrite <- Hperm, iter_head, filter_cons_True by done.
    simpl. f_equal. apply length_zero_iff_nil.
    destruct (filter is_root (tail (Node.__iter__ t))) as [|x l] eqn:Hf; [done|].
    assert (x ∈ filter is_root (tail (Node.__iter__ t)))
      as [Hx Hin]%list_elem_of_filter by (rewrite Hf; left).
    by destruct (well_linked_tail t x Hwl Hin).
  - intros d Hd. apply (grounded_Permutation (Node.__iter__ t)); [done|].
    apply (well_linked_grounded _ t); [done|done| |by rewrite Hperm].
    apply grounded_root; [apply document_in_iter|done].
Qed.

Lemma well_linked_prefix_edges n :
  well_linked n → prefix_edges n = map edge_of (tail (Node.__iter__ n)).
Proof.
  intros Hwl. rewrite <- parent_child_children, map_map. unfold prefix_edges.
  apply map_ext_in. intros [p c] Hpc%list_elem_of_In. simpl.
  unfold edge_of. by rewrite (Hwl p c Hpc).
Qed.

(** ** Order of the input *)

(** C5: when a list is assembled, so is each of its permutations, into a
    tree with the same root document, the same documents and the same
    set of parent-prefix/child-prefix edges (each edge as often, too),
    whatever the order of the children. *)
Theorem from_list_Permutation (docs docs' : list Document) (t : Node) :
  Node.from_list docs = Some (Return t) → docs ≡ₚ docs' →
  ∃ t', Node.from_list docs' = Some (Return t') ∧
        document t' = document t ∧
        Node.__iter__ t' ≡ₚ Node.__iter__ t ∧
        prefix_edges t' ≡ₚ prefix_edges t ∧
        ∀ e, e ∈ prefix_edges t' ↔ e ∈ prefix_edges t.
Proof.
  intros (Hiter & Hwl & Hr & Hone & Hall)%assembled_input Hperm.
  destruct (from_list_grounded docs') as (t' & _ & Ht').
  { unfold one_root in *. by rewrite <- Hperm. }
  { intros d Hd. apply (grounded_Permutation docs); [done|].
    apply Hall. by rewrite Hperm. }
  exists t'. split; [done|].
  apply assembled_input in Ht' as (Hiter' & Hwl' & Hr' & _ & _).
  assert (Node.__iter__ t' ≡ₚ Node.__iter__ t) as Hsame
    by (by rewrite Hiter, Hiter', Hperm).
  assert (document t' = document t) as Hdoc.
  { pose proof (document_in_iter t') as Hin. rewrite Hsame, iter_head in Hin.
    apply elem_of_cons in Hin as [?|Hin]; [done|].
    by destruct (well_linked_tail t _ Hwl Hin). }
  assert (prefix_edges t' ≡ₚ prefix_edges t) as Hedges.
  { rewrite !well_linked_prefix_edges by done.
    apply Permutation_map, (Permutation_cons_inv (a:=document t)).
    rewrite <- Hdoc at 1. by rewrite <- !iter_head. }
  split_and!; [done..|]. intros e. by rewrite Hedges.
Qed.

(** ** A stuck assembly *)

Lemma stuck_raises docs tree unplaced :
  loop_state docs tree unplaced → stuck tree unplaced →
  ∃ doc, head unplaced = Some doc ∧
         Node.from_list docs = Some (Raise (Doorstop (unplaced_document doc))).
Proof.
  intros Hstate [Hne (t' & u' & Hrun & Hlen)].
  destruct (loop_state_fuel _ _ _ Hstate) as (fuel & Hfuel & ->).
  destruct unplaced as [|u rest]; [done|].
  destruct fuel as [|fuel]; [simpl in Hfuel; lia|].
  exists u. split; [done|]. rewrite while_unplaced_cons, Hrun.
  destruct (for_doc_refl tree (u :: rest)) as (t'' & u'' & Hrun' & _ & _ & _ & _ & _ & Hstuck).
  rewrite Hrun in Hrun'. injection Hrun' as <- <-.
  destruct (Hstuck Hlen) as [_ ->]. by rewrite Nat.eqb_refl.
Qed.

Lemma absent_parent_not_assembled docs t d p :
  loop_state docs t [] → d ∈ docs → Document.parent d = Some p →
  p ∈ map Document.prefix docs.
Proof.
  intros (Hperm & Hwl & Hroot)%loop_state_done Hd Hpar.
  apply find_root_Some in Hroot as (_ & _ & _ & Hr & _).
  rewrite <- Hperm, iter_head in Hd. apply elem_of_cons in Hd as [->|Hd].
  - unfold is_root in Hr. congruence.
  - rewrite <- parent_child_children in Hd.
    apply list_elem_of_In, in_map_iff in Hd as ([q c] & <- & Hqc%list_elem_of_In).
    simpl in Hpar. rewrite (Hwl q c Hqc) in Hpar. injection Hpar as <-.
    apply list_elem_of_In, in_map, list_elem_of_In. rewrite <- Hperm.
    by eapply parent_child_parents.
Qed.

(** C3 (as implemented): when a pass over the unplaced handles removes none,
    [from_list] raises "unplaced document" for the first of them and
    returns no tree; and this happens whenever the list has a handle
    without parent prefix and some handle names a prefix that no handle of
    the list carries. *)
Theorem from_list_stuck (docs : list Document) :
  (∀ tree unplaced,
     loop_state docs tree unplaced → stuck tree unplaced →
     ∃ doc, head unplaced = Some doc ∧
            Node.from_list docs = Some (Raise (Doorstop (unplaced_document doc)))) ∧
  ((∃ r, r ∈ docs ∧ is_root r) →
   (∃ d p, d ∈ docs ∧ Document.parent d = Some p ∧ p ∉ map Document.prefix docs) →
   ∃ tree unplaced doc,
     loop_state docs tree unplaced ∧ stuck tree unplaced ∧
     head unplaced = Some doc ∧
     Node.from_list docs = Some (Raise (Doorstop (unplaced_document doc)))).
Proof.
  split; [apply stuck_raises|].
  intros (r & Hr & Hroot) (d & p & Hd & Hpar & Habsent).
  destruct (from_list_cases docs)
    as [[Hnone _]|[(t & Hstate & _)|(t & u & rest & Hstate & Hstuck & Heq)]].
  - rewrite find_root_None in Hnone. by destruct (Hnone r).
  - destruct Habsent. by eapply absent_parent_not_assembled.
  - by exists t, (u :: rest), u.
Qed.

(** ** The choice of the root *)

(** C4: without a handle that has no parent prefix, [from_list] raises
    "no root document"; otherwise [from_list] is the loop run from the
    tree whose only node holds the first such handle of the list, with the
    other handles unplaced: it either returns a tree with that handle at
    the root, or raises "unplaced document" for one of the other handles,
    in a pass that removes nothing from a tree with that handle at the
    root; it is the root throughout and the error is never "no root
    document". *)
Theorem from_list_root (docs : list Document) :
  ((∀ d, d ∈ docs → ¬ is_root d) →
   Node.from_list docs = Some (Raise (Doorstop no_root_document))) ∧
  (∀ pre r post,
     docs = pre ++ r :: post → (∀ d, d ∈ pre → ¬ is_root d) → is_root r →
     Node.from_list docs =
       Node.while_unplaced (length docs) (Node.__init__ r) (pre ++ post) ∧
     ((∃ t, Node.from_list docs = Some (Return t) ∧ document t = r) ∨
      (∃ tree u rest,
         Node.from_list docs = Some (Raise (Doorstop (unplaced_document u))) ∧
         u ∈ pre ++ post ∧
         document tree = r ∧
         Node.__iter__ tree ++ u :: rest ≡ₚ docs ∧
         Node.for_doc (u :: rest) tree (u :: rest) = Return (tree, u :: rest))) ∧
     loop_state docs (Node.__init__ r) (pre ++ post) ∧
     (∀ tree unplaced, loop_state docs tree unplaced → document tree = r) ∧
     Node.from_list docs ≠ Some (Raise (Doorstop no_root_document)) ∧
     (∀ t, Node.from_list docs = Some (Return t) → document t = r)).
Proof.
  split.
  - intros Hnone%find_root_None.
    unfold Node.from_list, Node.from_list_fuel. by rewrite Hnone.
  - intros pre r post -> Hpre Hr.
    pose proof (find_root_first pre r post Hpre Hr) as Hroot.
    assert (list_remove r (pre ++ r :: post) = Some (pre ++ post)) as Hrem.
    { apply list_remove_middle. intros Hin. by apply (Hpre r). }
    assert (∀ tree unplaced,
              loop_state (pre ++ r :: post) tree unplaced → document tree = r) as Hinv.
    { intros tree unplaced (Hroot' & _)%loop_state_inv. congruence. }
    split_and!.
    + unfold Node.from_list, Node.from_list_fuel. by rewrite Hroot, Hrem.
    + destruct (from_list_cases (pre ++ r :: post))
        as [[Hnone _]|[(t & Hstate & Heq)|(t & u & rest & Hstate & Hstuck & Heq)]].
      * congruence.
      * left. exists t. split; [done|]. by eapply Hinv.
      * right. exists t, u, rest.
        pose proof (loop_state_inv _ _ _ Hstate)
          as (_ & Hperm & _ & unplaced0 & Hrem0 & Hsub).
        rewrite (Hinv _ _ Hstate), Hrem in Hrem0. injection Hrem0 as <-.
        destruct Hstuck as (_ & t' & u' & Hrun & Hlen).
        destruct (for_doc_refl t (u :: rest)) as (t'' & u'' & Hrun' & _ & _ & _ & _ & _ & Hsame).
        rewrite Hrun in Hrun'. injection Hrun' as <- <-.
        destruct (Hsame Hlen) as [-> ->].
        split_and!; [done| |by eapply Hinv|done|done].
        eapply elem_of_submseteq; [|exact Hsub]. left.
    + by apply loop_enter.
    + done.
    + destruct (from_list_cases (pre ++ r :: post))
        as [[Hnone _]|[(t & _ & ->)|(t & u & rest & _ & _ & ->)]]; [congruence|done..].
    + intros t Ht%from_list_Return. by eapply Hinv.
Qed.

(** ** Where [place] attaches *)

(** [place] compares with [==]: on a node it appends the handle to the children
    of that node exactly when the parent prefix of the handle is equal,
    character by character, to the prefix of the node's document; wherever
    below it [place] attaches the handle, the receiving node's document
    has exactly the prefix the handle names; so in every assembled tree
    each child document names the prefix of the document above it (and the
    two are then equal without regard to case as well). *)
Theorem place_attaches :
  (∀ node doc,
     (children (Node.place node doc).1 = children node ++ [Node.__init__ doc] ∧
      (Node.place node doc).2 = inr tt) ↔
     Document.parent doc = Some (Document.prefix (document node))) ∧
  (∀ node doc node',
     Node.place node doc = (node', inr tt) →
     ∃ p, p ∈ Node.__iter__ node ∧
          Document.parent doc = Some (Document.prefix p) ∧
          parent_child node' ≡ₚ (p, doc) :: parent_child node) ∧
  (∀ docs t,
     Node.from_list docs = Some (Return t) →
     ∀ p c, (p, c) ∈ parent_child t →
       ∃ q, Document.parent c = Some q ∧ q = Document.prefix p ∧
            ∀ lower, same_prefix_nocase lower q (Document.prefix p)).
Proof.
  split_and!.
  - intros [d cs] doc. rewrite place_unfold. simpl.
    destruct (Node.parent_is doc (Document.prefix d)) eqn:Hd.
    + apply parent_is_true in Hd. by split.
    + apply parent_is_false in Hd.
      pose proof (place_for_child_length doc cs) as Hlen.
      destruct (place_for_child doc cs) as [cs' r]. simpl in *.
      split; [|done]. intros [Heq _]. rewrite Heq, length_app in Hlen.
      simpl in Hlen. lia.
  - intros node doc node' Hplace. by apply place_ok in Hplace as (_ & _ & ?).
  - intros docs t (_ & Hwl & _)%assembled_input p c Hpc.
    exists (Document.prefix p). by rewrite (Hwl p c Hpc).
Qed.

(** ** Validation *)

Section check_properties.
Context {World : Type}.
Variable Document_check : Document → World → World * outcome unit.

Lemma for_document_pass docs w w' :
  checks_pass Document_check docs w w' →
  Node.for_document Document_check docs w = (w', docs, Return tt).
Proof.
  induction 1 as [w|d docs w w1 w2 u Hd _ IH]; simpl; [done|].
  by rewrite Hd, IH.
Qed.

Lemma for_document_fail pre d post w w1 w2 e :
  checks_pass Document_check pre w w1 →
  Document_check d w1 = (w2, Raise e) →
  Node.for_document Document_check (pre ++ d :: post) w = (w2, pre ++ [d], Raise e).
Proof.
  intros Hpre Hd.
  induction Hpre as [w|d0 docs w w1 w1' u Hd0 _ IH]; simpl.
  - by rewrite Hd.
  - by rewrite Hd0, (IH Hd).
Qed.

Lemma checks_pass_or_fail docs w :
  (∃ w', checks_pass Document_check docs w w') ∨
  (∃ pre d post w1 w2 e,
     docs = pre ++ d :: post ∧
     checks_pass Document_check pre w w1 ∧
     Document_check d w1 = (w2, Raise e)).
Proof.
  revert w. induction docs as [|d docs IH]; intros w.
  - left. exists w. constructor.
  - destruct (Document_check d w) as [w1 [u|e]] eqn:Hd.
    + destruct (IH w1) as [[w' Hpass]|(pre & d' & post & w2 & w3 & e & -> & Hpre & Hd')].
      * left. exists w'. by econstructor.
      * right. exists (d :: pre), d', post, w2, w3, e.
        split_and!; [done| |done]. by econstructor.
    + right. exists [], d, docs, w, w1, e. split_and!; [done| |done]. constructor.
Qed.

(** C9: [check] calls [check()] on the documents in the order of the
    iteration; when all of them return it returns [True]; otherwise it
    raises what the first failing document raised, and [check()] has
    been called on the documents up to that one and on no other. *)
Theorem check_fail_fast (tree : Node) (w : World) :
  (∀ w',
     checks_pass Document_check (Node.__iter__ tree) w w' →
     Node.check Document_check tree w = (w', Node.__iter__ tree, Return true)) ∧
  (∀ pre d post w1 w2 e,
     Node.__iter__ tree = pre ++ d :: post →
     checks_pass Document_check pre w w1 →
     Document_check d w1 = (w2, Raise e) →
     Node.check Document_check tree w = (w2, pre ++ [d], Raise e)) ∧
  ((∃ w', checks_pass Document_check (Node.__iter__ tree) w w') ∨
   (∃ pre d post w1 w2 e,
      Node.__iter__ tree = pre ++ d :: post ∧
      checks_pass Document_check pre w w1 ∧
      Document_check d w1 = (w2, Raise e))).
Proof.
  split_and!.
  - intros w' Hpass. unfold Node.check. by rewrite (for_document_pass _ _ _ Hpass).
  - intros pre d post w1 w2 e Hiter Hpre Hd. unfold Node.check.
    by rewrite Hiter, (for_document_fail _ _ _ _ _ _ _ Hpre Hd).
  - apply checks_pass_or_fail.
Qed.
End check_properties.

(** ** Creating a document *)




Section new_properties.
Variable Document_new :
  string → string → string → option string → option nat →
  gset string → gset string * outcome Document.

End new_properties.

(** ** Linking items *)

Section link_lemmas.
Variable lower : string → string.

Lemma for_document_item_Some docs prefix number item :
  Node.for_document_item lower docs prefix number = Some item →
  ∃ document,
    document ∈ docs ∧ lower (Document.prefix document) = lower prefix ∧
    item ∈ Document.items document ∧ Item.number item = number.
Proof.
  induction docs as [|d docs IH]; simpl; [discriminate|].
  assert (Node.for_document_item lower docs prefix number = Some item →
          ∃ document, document ∈ d :: docs ∧
            lower (Document.prefix document) = lower prefix ∧
            item ∈ Document.items document ∧ Item.number item = number) as Hrest.
  { intros (d' & Hd' & ?)%IH. exists d'. split; [by right|done]. }
  case_bool_decide as Hp; [|done].
  destruct (find _ (Document.items d)) as [i|] eqn:Hfind; [|done].
  intros [= ->]. apply find_some in Hfind as [Hin Hn].
  exists d. split_and!; [left|done|by apply list_elem_of_In|].
  by apply bool_decide_eq_true in Hn.
Qed.

Lemma for_document_item_None docs prefix number :
  Node.for_document_item lower docs prefix number = None →
  ∀ document item,
    document ∈ docs → lower (Document.prefix document) = lower prefix →
    item ∈ Document.items document → Item.number item ≠ number.
Proof.
  induction docs as [|d docs IH]; simpl.
  - intros _ d' i Hd'. by apply elem_of_nil in Hd'.
  - case_bool_decide as Hp.
    + destruct (find _ (Document.items d)) as [i|] eqn:Hfind; [discriminate|].
      intros Hrest d' i [->|Hd']%elem_of_cons Hd'p Hi; [|by eapply IH].
      apply list_elem_of_In in Hi.
      by apply (find_none _ _ Hfind), bool_decide_eq_false in Hi.
    + intros Hrest d' i [->|Hd']%elem_of_cons Hd'p Hi; [done|by eapply IH].
Qed.

Lemma resolvable_for_document_item tree prefix number :
  resolvable lower tree prefix number →
  ∃ item, Node.for_document_item lower (Node.__iter__ tree) prefix number = Some item ∧
          item_of lower tree prefix number item.
Proof.
  intros (i & d & Hd & Hp & Hi & Hn).
  destruct (Node.for_document_item lower (Node.__iter__ tree) prefix number)
    as [item|] eqn:Hfind.
  - exists item. split; [done|]. by apply for_document_item_Some.
  - by destruct (for_document_item_None _ _ _ Hfind d i).
Qed.

Lemma not_resolvable_for_document_item tree prefix number :
  ¬ resolvable lower tree prefix number →
  Node.for_document_item lower (Node.__iter__ tree) prefix number = None.
Proof.
  intros Hno.
  destruct (Node.for_document_item lower (Node.__iter__ tree) prefix number)
    as [item|] eqn:Hfind; [|done].
  destruct Hno. exists item. by apply for_document_item_Some.
Qed.

Section link_properties.
Variable split_id : string → outcome (string * Z).

(** C6 (as implemented): with both IDs resolvable, [link] returns the pair
    (child, parent) of the items they stand for and adds the [id] of the
    parent item to the link set of the child item, and changes no other
    link set; when the child ID does not resolve it raises "no matching
    child ID", when the child ID resolves and the parent ID does not it
    raises "no matching parent ID", and in both cases no link set has
    changed. *)
Theorem link_resolved (tree : Node) (cid pid : string)
    (links : gmap nat (gset string)) (cp pp : string) (cn pn : Z) :
  split_id cid = Return (cp, cn) →
  split_id pid = Return (pp, pn) →
  (resolvable lower tree cp cn → resolvable lower tree pp pn →
   ∃ child parent links',
     Node.link lower split_id tree cid pid links = (links', Return (child, parent)) ∧
     item_of lower tree cp cn child ∧ item_of lower tree pp pn parent ∧
     links' !!! Item.oid child = {[Item.id parent]} ∪ links !!! Item.oid child ∧
     ∀ o, o ≠ Item.oid child → links' !! o = links !! o) ∧
  (¬ resolvable lower tree cp cn →
   Node.link lower split_id tree cid pid links =
     (links, Raise (Doorstop (no_matching_child_ID cid)))) ∧
  (resolvable lower tree cp cn → ¬ resolvable lower tree pp pn →
   ∃ named,
     Node.link lower split_id tree cid pid links =
       (links, Raise (Doorstop (no_matching_parent_ID named)))).
Proof.
  intros Hcid Hpid. unfold Node.link. rewrite Hcid. split_and!.
  - intros (child & -> & Hchild)%resolvable_for_document_item
           (parent & Hfind & Hparent)%resolvable_for_document_item.
    rewrite Hpid, Hfind. exists child, parent. eexists. split; [done|].
    unfold Item.add_link. split_and!; [done..| |].
    + by rewrite lookup_total_insert_eq.
    + intros o Ho. by rewrite lookup_insert_ne.
  - by intros ->%not_resolvable_for_document_item.
  - intros (child & -> & _)%resolvable_for_document_item
           Hno%not_resolvable_for_document_item.
    rewrite Hpid, Hno. by eexists.
Qed.

(** The ID that the "no matching parent ID" error carries is the child's. *)
Lemma link_parent_error (tree : Node) (cid pid : string)
    (links : gmap nat (gset string)) (cp pp : string) (cn pn : Z) :
  split_id cid = Return (cp, cn) →
  split_id pid = Return (pp, pn) →
  resolvable lower tree cp cn → ¬ resolvable lower tree pp pn →
  Node.link lower split_id tree cid pid links =
    (links, Raise (Doorstop (no_matching_parent_ID cid))).
Proof.
  intros Hcid Hpid (child & Hfind & _)%resolvable_for_document_item
         Hno%not_resolvable_for_document_item.
  unfold Node.link. by rewrite Hcid, Hfind, Hpid, Hno.
Qed.
End link_properties.
End link_lemmas.

(** ** The properties on the example data *)

Lemma acyclic_rank docs (rank : Document → nat) :
  (∀ d d', references docs d d' → rank d' < rank d) → acyclic docs.
Proof.
  intros Hrank d Hcycle.
  assert (∀ x y, tc (references docs) x y → rank y < rank x) as Hlt.
  { induction 1 as [x y Hxy|x y z Hxy _ IH]; [by apply Hrank|].
    apply Hrank in Hxy. lia. }
  specialize (Hlt d d Hcycle). lia.
Qed.

Import Examples.

(** Parents listed after their children are found in a later pass. *)
Example from_list_HLT_REQ :
  Node.from_list [HLT; REQ] = Some (Return tree_REQ_HLT).
Proof. reflexivity. Qed.

Example from_list_LLT_HLT_REQ :
  Node.from_list [LLT; HLT; REQ] = Some (Return tree_REQ_HLT_LLT).
Proof. reflexivity. Qed.

Example from_list_unplaced_EXT :
  Node.from_list [REQ; HLT; EXT] = Some (Raise (Doorstop (unplaced_document EXT))).
Proof. reflexivity. Qed.

(** A handle listed twice is placed twice. *)
Example from_list_HLT_twice :
  Node.from_list [HLT; REQ; HLT] =
    Some (Return (mkNode REQ [mkNode HLT []; mkNode HLT []])).
Proof. reflexivity. Qed.

(** A second handle without parent prefix is never placed. *)
Example from_list_two_roots :
  Node.from_list [REQ; HLT; REQ] = Some (Raise (Doorstop (unplaced_document REQ))).
Proof. reflexivity. Qed.

Example len_tree_with_EXT : Node.__len__ tree_with_EXT = 4.
Proof. reflexivity. Qed.

Lemma from_list_assembles_witness :
  ∃ t, Node.from_list [LLT; HLT; REQ] = Some (Return t) ∧
       Node.__iter__ t ≡ₚ [LLT; HLT; REQ].
Proof.
  apply from_list_assembles.
  - reflexivity.
  - intros d p Hd%list_elem_of_In. simpl in Hd.
    destruct Hd as [<-|[<-|[<-|[]]]]; intros [= <-];
      apply list_elem_of_In; simpl; tauto.
  - apply (acyclic_rank _ rank).
    intros d d' (Hd%list_elem_of_In & Hd'%list_elem_of_In & Hpar).
    simpl in Hd, Hd'.
    destruct Hd as [<-|[<-|[<-|[]]]]; destruct Hd' as [<-|[<-|[<-|[]]]];
      try discriminate Hpar; vm_compute; lia.
Defined.

Lemma place_attaches_witness :
  Node.place (Node.__init__ REQ) HLT = (tree_REQ_HLT, inr tt) ∧
  ∃ q, Document.parent HLT = Some q ∧ q = Document.prefix REQ ∧
       same_prefix_nocase lower_on_ascii q (Document.prefix REQ).
Proof.
  destruct place_attaches as (Hhere & _ & Hassembled). split.
  - reflexivity.
  - destruct (Hassembled [HLT; REQ] tree_REQ_HLT eq_refl REQ HLT)
      as (q & Hq & Heq & Hcase); [left|].
    exists q. split_and!; [exact Hq|exact Heq|apply Hcase].
Defined.

(** C2: [place] does not fold letter case, where [add] does: a handle
    that names the prefix [REQ] as [req] is not attached below the node of
    [REQ]; [place] raises "no parent for" it and the tree is as before,
    though [add] finds the document of that node under the name [req]. *)
Lemma place_no_case_folding :
  Document.parent TUT = Some "req" ∧
  same_prefix_nocase lower_on_ascii "req" (Document.prefix REQ) ∧
  Node.place (Node.__init__ REQ) TUT = (Node.__init__ REQ, inl (no_parent_for TUT)) ∧
  Node.add lower_on_ascii MoreExamples.Document_add (Node.__init__ REQ) "req" 0 =
    MoreExamples.Document_add REQ 0.
Proof. by vm_compute. Qed.

Lemma from_list_stuck_witness :
  ∃ doc, Node.from_list [REQ; HLT; EXT] =
           Some (Raise (Doorstop (unplaced_document doc))).
Proof.
  destruct (from_list_stuck [REQ; HLT; EXT]) as [Hstuck Habsent].
  destruct Habsent as (tree & unplaced & _ & Hstate & Hpass & _).
  - exists REQ. split; [left|reflexivity].
  - exists EXT, "Z". split_and!; [compute_done|reflexivity|compute_done].
  - destruct (Hstuck tree unplaced Hstate Hpass) as (doc & _ & Hraise).
    by exists doc.
Defined.

(** A handle that names an absent prefix, in a list without root: the
    error is "no root document". *)
Lemma from_list_absent_parent_no_root :
  (∃ d p, d ∈ [EXT] ∧ Document.parent d = Some p ∧
          p ∉ map Document.prefix [EXT]) ∧
  Node.from_list [EXT] = Some (Raise (Doorstop no_root_document)) ∧
  ¬ ∃ doc, Node.from_list [EXT] = Some (Raise (Doorstop (unplaced_document doc))).
Proof.
  split_and!.
  - exists EXT, "Z". split_and!; [compute_done|reflexivity|compute_done].
  - reflexivity.
  - intros [doc Hdoc]. vm_compute in Hdoc. discriminate.
Qed.

Lemma from_list_root_witness :
  Node.from_list [HLT; LLT] = Some (Raise (Doorstop no_root_document)) ∧
  Node.from_list [HLT; REQ; LLT] =
    Node.while_unplaced 3 (Node.__init__ REQ) [HLT; LLT] ∧
  ((∃ t, Node.from_list [HLT; REQ; LLT] = Some (Return t) ∧ document t = REQ) ∨
   (∃ tree u rest,
      Node.from_list [HLT; REQ; LLT] =
        Some (Raise (Doorstop (unplaced_document u))) ∧
      u ∈ [HLT; LLT] ∧
      document tree = REQ ∧
      Node.__iter__ tree ++ u :: rest ≡ₚ [HLT; REQ; LLT] ∧
      Node.for_doc (u :: rest) tree (u :: rest) = Return (tree, u :: rest))).
Proof.
  split.
  - apply (from_list_root [HLT; LLT]).
    intros d Hd%list_elem_of_In. simpl in Hd.
    destruct Hd as [<-|[<-|[]]]; discriminate.
  - destruct (from_list_root [HLT; REQ; LLT]) as [_ Hroot].
    destruct (Hroot [HLT] REQ [LLT]) as (Hloop & Hresult & _).
    + reflexivity.
    + intros d Hd%list_elem_of_In. simpl in Hd.
      destruct Hd as [<-|[]]; discriminate.
    + reflexivity.
    + split; [exact Hloop|exact Hresult].
Defined.

Lemma from_list_Permutation_witness :
  ∃ t', Node.from_list [REQ; HLT; LLT] = Some (Return t') ∧
        document t' = document tree_REQ_HLT_LLT ∧
        Node.__iter__ t' ≡ₚ Node.__iter__ tree_REQ_HLT_LLT ∧
        prefix_edges t' ≡ₚ prefix_edges tree_REQ_HLT_LLT ∧
        ∀ e, e ∈ prefix_edges t' ↔ e ∈ prefix_edges tree_REQ_HLT_LLT.
Proof.
  apply (from_list_Permutation [LLT; HLT; REQ]).
  - reflexivity.
  - apply (Permutation_rev [LLT; HLT; REQ]).
Defined.

Lemma link_resolved_witness :
  ∃ child parent links',
    Node.link lower_on_ascii split_id tree_REQ_HLT "HLT1" "REQ2" ∅ = (links', Return (child, parent)) ∧
    item_of lower_on_ascii tree_REQ_HLT "HLT" 1 child ∧ item_of lower_on_ascii tree_REQ_HLT "REQ" 2 parent ∧
    links' !!! Item.oid child = {[Item.id parent]} ∪ (∅ : gmap nat (gset string)) !!! Item.oid child ∧
    ∀ o, o ≠ Item.oid child → links' !! o = (∅ : gmap nat (gset string)) !! o.
Proof.
  destruct (link_resolved lower_on_ascii split_id tree_REQ_HLT "HLT1" "REQ2" ∅ "HLT" "REQ" 1 2)
    as (Hboth & _ & _); [reflexivity..|].
  apply Hboth.
  - exists HLT001, HLT. split_and!; [compute_done|reflexivity|compute_done|reflexivity].
  - exists REQ002, REQ. split_and!; [compute_done|reflexivity|compute_done|reflexivity].
Defined.

(** [link] adds the [id] of the parent item, not the ID it was given. *)
Lemma link_adds_item_id :
  (Node.link lower_on_ascii split_id tree_REQ_HLT "hlt1" "req1" ∅).2 = Return (HLT001, REQ001) ∧
  "REQ001" ∈ (Node.link lower_on_ascii split_id tree_REQ_HLT "hlt1" "req1" ∅).1 !!! Item.oid HLT001 ∧
  "req1" ∉ (Node.link lower_on_ascii split_id tree_REQ_HLT "hlt1" "req1" ∅).1 !!! Item.oid HLT001.
Proof. split_and!; [reflexivity|compute_done|compute_done]. Qed.

(** C7: [link("REQ1", "HLT1")] with [REQ1] in the tree and no [HLT1]: the
    error "no matching parent ID" carries [REQ1], the ID of the child. *)
Theorem link_REQ1_HLT1 :
  Node.link lower_on_ascii split_id tree_REQ_HLT "REQ1" "HLT2" ∅ =
    (∅, Raise (Doorstop (no_matching_parent_ID "REQ1"))) ∧
  Node.link lower_on_ascii split_id (Node.__init__ REQ) "REQ1" "HLT1" ∅ =
    (∅, Raise (Doorstop (no_matching_parent_ID "REQ1"))).
Proof. split; reflexivity. Qed.


Lemma check_fail_fast_witness :
  Node.check Document_check tree_REQ_HLT 0 = (2, [REQ; HLT], Return true) ∧
  Node.check Document_check tree_with_EXT 0 =
    (3, [REQ; HLT; EXT], Raise (Doorstop (external_error "EXT: invalid"))).
Proof.
  split.
  - apply (check_fail_fast Document_check tree_REQ_HLT 0).
    repeat econstructor.
  - apply (proj1 (proj2 (check_fail_fast Document_check tree_with_EXT 0))
             [REQ; HLT] EXT [LLT] 2 3).
    + reflexivity.
    + repeat econstructor.
    + reflexivity.
Defined.

(** * Further properties *)

(** ** More on [place] *)

Lemma not_placeable_iter n doc x :
  ¬ placeable n doc → x ∈ Node.__iter__ n →
  Document.parent doc ≠ Some (Document.prefix x).
Proof.
  intros Hno Hx Hpar. apply Hno. exists (Document.prefix x).
  split; [done|]. by apply elem_of_prefixes.
Qed.

(** X1: [place] succeeds exactly when some document of the tree carries,
    character for character, the prefix the handle names; otherwise it
    raises "no parent for" the handle and the tree is as before. *)
Theorem place_succeeds_iff (tree : Node) (doc : Document) :
  ((∃ tree', Node.place tree doc = (tree', inr tt)) ↔
   (∃ d, d ∈ Node.__iter__ tree ∧
         Document.parent doc = Some (Document.prefix d))) ∧
  ((¬ ∃ d, d ∈ Node.__iter__ tree ∧
           Document.parent doc = Some (Document.prefix d)) →
   Node.place tree doc = (tree, inl (no_parent_for doc))).
Proof.
  assert (placeable tree doc ↔
          ∃ d, d ∈ Node.__iter__ tree ∧
               Document.parent doc = Some (Document.prefix d)) as Hiff.
  { split.
    - intros (p & Hp & Hin). unfold prefixes in Hin.
      apply list_elem_of_In, in_map_iff in Hin as (d & <- & Hd%list_elem_of_In).
      by exists d.
    - intros (d & Hd & Hp). exists (Document.prefix d).
      split; [done|]. by apply elem_of_prefixes. }
  rewrite <- Hiff. split; [split|].
  - intros [tree' Hplace].
    destruct (place_ok _ _ _ Hplace) as (_ & _ & p & Hp & Hpar & _).
    apply Hiff. by exists p.
  - apply place_placeable.
  - intros Hno. destruct (Node.place tree doc) as [tree' [e|[]]] eqn:Hplace.
    + by apply place_fail in Hplace as (-> & -> & _).
    + destruct Hno. destruct (place_ok _ _ _ Hplace) as (_ & _ & p & Hp & Hpar & _).
      apply Hiff. by exists p.
Qed.

(** X2: a handle without parent prefix is never placed: on every tree
    [place] raises "no parent for" it and leaves the tree as it was. *)
Theorem place_without_parent (tree : Node) (doc : Document) :
  Document.parent doc = None →
  Node.place tree doc = (tree, inl (no_parent_for doc)).
Proof.
  intros Hnone. destruct (Node.place tree doc) as [tree' [e|[]]] eqn:Hplace.
  - by apply place_fail in Hplace as (-> & -> & _).
  - apply place_ok in Hplace as (_ & _ & p & _ & Hpar & _). congruence.
Qed.

(** X3: the handle goes below the first document, in the order of the
    iteration, that carries the prefix it names. *)
Theorem place_first_match (tree tree' : Node) (doc : Document) :
  Node.place tree doc = (tree', inr tt) →
  ∃ pre p post,
    Node.__iter__ tree = pre ++ p :: post ∧
    Document.parent doc = Some (Document.prefix p) ∧
    (∀ x, x ∈ pre → Document.parent doc ≠ Some (Document.prefix x)) ∧
    parent_child tree' ≡ₚ (p, doc) :: parent_child tree.
Proof.
  revert tree'. induction tree as [d cs IH] using Node_ind_Forall. intros tree'.
  rewrite place_unfold.
  destruct (Node.parent_is doc (Document.prefix d)) eqn:Hd.
  - apply parent_is_true in Hd. intros [= <-].
    exists [], d, (concat (map Node.__iter__ cs)). split_and!; [done..| |].
    + intros x Hx. by apply elem_of_nil in Hx.
    + rewrite !parent_child_unfold, map_app, concat_app. simpl.
      by rewrite (Permutation_app_comm _ [_]).
  - apply parent_is_false in Hd.
    destruct (place_for_child doc cs) as [cs' r] eqn:Hcs. intros [= <- ->].
    rewrite iter_unfold, !parent_child_unfold.
    assert (∃ pre p post,
              concat (map Node.__iter__ cs) = pre ++ p :: post ∧
              Document.parent doc = Some (Document.prefix p) ∧
              (∀ x, x ∈ pre → Document.parent doc ≠ Some (Document.prefix x)) ∧
              concat (map (fun c => (d, document c) :: parent_child c) cs') ≡ₚ
              (p, doc) :: concat (map (fun c => (d, document c) :: parent_child c) cs))
      as (pre & p & post & Hiter & Hpar & Hpre & Hpc).
    { clear Hd. revert cs' Hcs.
      induction IH as [|c cs Hc _ IHcs]; intros cs'; [discriminate|].
      rewrite place_for_child_cons.
      destruct (Node.place c doc) as [c' [e'|[]]] eqn:Hplace.
      - destruct (place_for_child doc cs) as [cs'' r'] eqn:Hrest.
        intros [= <- ->]. apply place_fail in Hplace as (-> & _ & Hno).
        destruct (IHcs _ eq_refl) as (pre & p & post & Hiter & Hpar & Hpre & Hpc).
        exists (Node.__iter__ c ++ pre), p, post. simpl. split_and!.
        + by rewrite Hiter, app_assoc.
        + done.
        + intros x [Hx|Hx]%elem_of_app; [by eapply not_placeable_iter|by apply Hpre].
        + rewrite Hpc. symmetry.
          apply (Permutation_middle ((d, document c) :: parent_child c)).
      - intros [= <-].
        destruct (Hc _ eq_refl) as (pre & p & post & Hiter & Hpar & Hpre & Hpc).
        apply place_ok in Hplace as (Hdoc & _).
        exists pre, p, (post ++ concat (map Node.__iter__ cs)). simpl. split_and!.
        + by rewrite Hiter, <- app_assoc.
        + done.
        + done.
        + rewrite Hdoc, Hpc. apply Permutation_swap. }
    exists (d :: pre), p, post. split_and!.
    + by rewrite Hiter.
    + done.
    + intros x [->|Hx]%elem_of_cons; [done|by apply Hpre].
    + done.
Qed.

Lemma len_length_iter n : Node.__len__ n = length (Node.__iter__ n).
Proof.
  induction n as [d cs IH] using Node_ind_Forall.
  rewrite iter_unfold. simpl. f_equal.
  rewrite sum_list_length_concat, map_map.
  induction IH as [|c cs Hc _ IHcs]; simpl; [done|]. by rewrite Hc, IHcs.
Qed.

(** X4: a successful [place] inserts the handle into the iteration without
    moving or dropping a document, after the root; the size grows by one. *)
Theorem place_inserts (tree tree' : Node) (doc : Document) :
  Node.place tree doc = (tree', inr tt) →
  ∃ l1 l2,
    Node.__iter__ tree = document tree :: l1 ++ l2 ∧
    Node.__iter__ tree' = document tree :: l1 ++ doc :: l2 ∧
    Node.__len__ tree' = S (Node.__len__ tree).
Proof.
  intros Hplace.
  assert (∃ l1 l2,
            Node.__iter__ tree = document tree :: l1 ++ l2 ∧
            Node.__iter__ tree' = document tree :: l1 ++ doc :: l2)
    as (l1 & l2 & Htree & Htree').
  { revert tree' Hplace. induction tree as [d cs IH] using Node_ind_Forall.
    intros tree'. rewrite place_unfold.
    destruct (Node.parent_is doc (Document.prefix d)) eqn:Hd.
    - intros [= <-]. exists (concat (map Node.__iter__ cs)), [].
      rewrite !iter_unfold, map_app, concat_app. simpl. by rewrite !app_nil_r.
    - destruct (place_for_child doc cs) as [cs' r] eqn:Hcs. intros [= <- ->].
      rewrite !iter_unfold. simpl.
      assert (∃ l1 l2,
                concat (map Node.__iter__ cs) = l1 ++ l2 ∧
                concat (map Node.__iter__ cs') = l1 ++ doc :: l2)
        as (l1 & l2 & -> & ->); [|by exists l1, l2].
      clear Hd. revert cs' Hcs.
      induction IH as [|c cs Hc _ IHcs]; intros cs'; [discriminate|].
      rewrite place_for_child_cons.
      destruct (Node.place c doc) as [c' [e'|[]]] eqn:Hplace.
      + destruct (place_for_child doc cs) as [cs'' r'] eqn:Hrest.
        intros [= <- ->]. apply place_fail in Hplace as (-> & _ & _).
        destruct (IHcs _ eq_refl) as (l1 & l2 & Hl & Hl').
        exists (Node.__iter__ c ++ l1), l2. simpl.
        by rewrite Hl, Hl', !app_assoc.
      + intros [= <-]. destruct (Hc _ eq_refl) as (l1 & l2 & Hl & Hl').
        exists (document c :: l1), (l2 ++ concat (map Node.__iter__ cs)). simpl.
        rewrite Hl, Hl'. simpl. by rewrite <- !app_assoc. }
  exists l1, l2. split_and!; [done..|].
  rewrite !len_length_iter, Htree, Htree'. simpl.
  rewrite !length_app. simpl. lia.
Qed.

(** ** More on [from_list] *)

(** X5: [from_list] always comes to an end, and in one of three ways: it
    raises "no root document" (exactly when no handle is without parent
    prefix), it returns a tree, or it raises "unplaced document" for a
    handle of the list; [list.remove] and [unplaced[0]] never raise in
    it. *)
Theorem from_list_outcomes (docs : list Document) :
  (Node.from_list docs = Some (Raise (Doorstop no_root_document)) ↔
   ∀ d, d ∈ docs → ¬ is_root d) ∧
  ((∃ t, Node.from_list docs = Some (Return t)) ∨
   Node.from_list docs = Some (Raise (Doorstop no_root_document)) ∨
   (∃ u, u ∈ docs ∧
         Node.from_list docs = Some (Raise (Doorstop (unplaced_document u))))).
Proof.
  destruct (from_list_cases docs)
    as [[Hnone Heq]|[(t & _ & Heq)|(t & u & rest & Hstate & _ & Heq)]].
  - split; [|by auto]. split; [intros _; by apply find_root_None|done].
  - split; [|by eauto]. rewrite Heq. split; [done|].
    intros Hno%find_root_None. apply from_list_Return in Heq.
    apply loop_state_done in Heq as (_ & _ & Hroot). congruence.
  - pose proof (loop_state_inv _ _ _ Hstate) as (Hroot & Hperm & _).
    split.
    + rewrite Heq. split; [done|]. intros Hno%find_root_None. congruence.
    + right. right. exists u. split; [|done].
      rewrite <- Hperm. apply elem_of_app. right. left.
Qed.

(** X6: [from_list] returns a tree exactly for the lists with one handle
    without parent prefix in which every handle is grounded: its
    references lead, handle by handle of the list, to that root. *)
Theorem from_list_succeeds_iff (docs : list Document) :
  (∃ t, Node.from_list docs = Some (Return t)) ↔
  one_root docs ∧ ∀ d, d ∈ docs → grounded docs d.
Proof.
  split.
  - intros [t Ht]. by apply assembled_input in Ht as (_ & _ & _ & ? & ?).
  - intros [Hone Hall].
    destruct (from_list_grounded docs Hone Hall) as (t & _ & Ht). by exists t.
Qed.

(** X7: whenever [from_list] returns a tree, the tree holds the documents
    of the list, each as often as the list: its size is the length of the
    list, and it has no document twice, and no prefix twice, when the list
    has none. *)
Theorem from_list_keeps_documents (docs : list Document) (t : Node) :
  Node.from_list docs = Some (Return t) →
  Node.__iter__ t ≡ₚ docs ∧
  Node.__len__ t = length docs ∧
  (NoDup docs → NoDup (Node.__iter__ t)) ∧
  (NoDup (map Document.prefix docs) → NoDup (prefixes t)).
Proof.
  intros (Hperm & _)%assembled_input. split_and!.
  - done.
  - by rewrite len_length_iter, Hperm.
  - by rewrite Hperm.
  - unfold prefixes. intros Hnodup.
    assert (map Document.prefix (Node.__iter__ t) ≡ₚ map Document.prefix docs)
      as Hmap by (by apply Permutation_map).
    by rewrite Hmap.
Qed.

(** X8: a list with more than one handle without parent prefix is never
    assembled: [from_list] raises "unplaced document" for one of its
    handles. *)
Theorem from_list_two_roots_rejected (docs : list Document) :
  2 ≤ length (filter is_root docs) →
  ∃ u, u ∈ docs ∧
       Node.from_list docs = Some (Raise (Doorstop (unplaced_document u))).
Proof.
  intros Htwo.
  destruct (from_list_cases docs)
    as [[Hnone _]|[(t & _ & Heq)|(t & u & rest & Hstate & _ & Heq)]].
  - rewrite find_root_None in Hnone.
    destruct (filter is_root docs) as [|d l] eqn:Hf; [simpl in Htwo; lia|].
    assert (d ∈ filter is_root docs) as [Hd Hin]%list_elem_of_filter
      by (rewrite Hf; left).
    by destruct (Hnone d).
  - apply assembled_input in Heq as (_ & _ & _ & Hone & _).
    unfold one_root in Hone. lia.
  - exists u. split; [|done].
    apply loop_state_inv in Hstate as (_ & Hperm & _).
    rewrite <- Hperm. apply elem_of_app. right. left.
Qed.

(** ** More on [check] *)

Section check_more.
Context {World : Type}.
Variable Document_check : Document → World → World * outcome unit.

Lemma for_document_calls docs w w' calls r :
  Node.for_document Document_check docs w = (w', calls, r) →
  ∃ rest, docs = calls ++ rest ∧
          (∀ u, r = Return u → rest = [] ∧ checks_pass Document_check docs w w').
Proof.
  revert w w' calls r. induction docs as [|d docs IH]; intros w w' calls r; simpl.
  - intros [= <- <- <-]. exists []. split; [done|]. intros _ _. split; [done|constructor].
  - destruct (Document_check d w) as [w1 [u|e]] eqn:Hd.
    + destruct (Node.for_document Document_check docs w1) as [[w2 called] r'] eqn:Hrest.
      intros [= <- <- <-]. destruct (IH _ _ _ _ Hrest) as (rest & Hdocs & Hret).
      exists rest. split; [by rewrite Hdocs at 1|].
      intros u' Hu'. destruct (Hret u' Hu') as [-> Hpass].
      split; [done|]. by econstructor.
    + intros [= <- <- <-]. exists docs. split; [done|]. by intros.
Qed.

(** X9: [check] calls [check()] on documents in the order of the
    iteration only, each at most once and without leaving one out before
    the last it calls; it never returns [False]: when it returns, it
    returns [True] and has called [check()] on every document. *)
Theorem check_calls_in_order (tree : Node) (w w' : World)
    (calls : list Document) (r : outcome bool) :
  Node.check Document_check tree w = (w', calls, r) →
  (∃ rest, Node.__iter__ tree = calls ++ rest) ∧
  length calls ≤ Node.__len__ tree ∧
  (∀ b, r = Return b →
        b = true ∧ calls = Node.__iter__ tree ∧
        checks_pass Document_check (Node.__iter__ tree) w w').
Proof.
  unfold Node.check.
  destruct (Node.for_document Document_check (Node.__iter__ tree) w)
    as [[w1 called] r'] eqn:Hrun.
  intros [= <- <- <-].
  destruct (for_document_calls _ _ _ _ _ Hrun) as (rest & Hiter & Hret).
  split_and!.
  - by exists rest.
  - rewrite len_length_iter, Hiter, length_app. lia.
  - intros b Hb. destruct r' as [u|e]; [|discriminate].
    injection Hb as <-. destruct (Hret u eq_refl) as [-> Hpass].
    rewrite app_nil_r in Hiter. by split_and!.
Qed.
End check_more.

(** ** More on [new] *)

Section new_more.
Variable Document_new :
  string → string → string → option string → option nat →
  gset string → gset string * outcome Document.

(** X10: when the new document names the prefix of a document of the
    tree, [new] returns it, the tree has gained exactly that document (its
    size grows by one, the root stays, children still name the prefix of
    the document above them), and the file system is as [Document.new]
    left it: nothing is deleted. *)
Theorem new_places (tree : Node) (path prefix : string) (parent : option string)
    (digits : option nat) (fs fs1 : gset string) (document0 d : Document) :
  Document_new path (Document.root (document tree)) prefix parent digits fs
    = (fs1, Return document0) →
  d ∈ Node.__iter__ tree →
  Document.parent document0 = Some (Document.prefix d) →
  ∃ tree',
    Node.new Document_new tree path prefix parent digits fs
      = (tree', fs1, Return document0) ∧
    Node.__iter__ tree' ≡ₚ document0 :: Node.__iter__ tree ∧
    Node.__len__ tree' = S (Node.__len__ tree) ∧
    document tree' = document tree ∧
    (well_linked tree → well_linked tree').
Proof.
  intros Hnew Hd Hpar. unfold Node.new. rewrite Hnew.
  destruct (place_placeable tree document0) as [tree' Hplace].
  { exists (Document.prefix d). split; [done|]. by apply elem_of_prefixes. }
  rewrite Hplace. exists tree'. split; [done|].
  pose proof (place_ok_well_linked _ _ _ Hplace) as Hwl.
  apply place_ok in Hplace as (Hdoc & Hiter & _). split_and!; [done| |done..].
  by rewrite !len_length_iter, Hiter.
Qed.

End new_more.

(** ** [add] *)

Section letter_case.
Variable lower : string → string.

Section add_properties.
Context {World : Type}.
Variable Document_add : Document → World → World * outcome Item.

Lemma add_for_document_first pre d post prefix w :
  (∀ x, x ∈ pre → lower (Document.prefix x) ≠ lower prefix) →
  lower (Document.prefix d) = lower prefix →
  Node.add_for_document lower Document_add (pre ++ d :: post) prefix w = Document_add d w.
Proof.
  intros Hpre Hd. induction pre as [|x pre IH]; simpl.
  - by rewrite bool_decide_eq_true_2.
  - rewrite bool_decide_eq_false_2 by (apply Hpre; left).
    apply IH. intros y Hy. apply Hpre. by right.
Qed.

Lemma first_match_split (docs : list Document) (prefix : string) d :
  d ∈ docs → lower (Document.prefix d) = lower prefix →
  ∃ pre d' post,
    docs = pre ++ d' :: post ∧
    (∀ x, x ∈ pre → lower (Document.prefix x) ≠ lower prefix) ∧
    lower (Document.prefix d') = lower prefix.
Proof.
  induction docs as [|x docs IH]; [by intros ?%elem_of_nil|].
  intros Hd Hp.
  destruct (decide (lower (Document.prefix x) = lower prefix)) as [Hx|Hx].
  - exists [], x, docs. split_and!; [done| |done].
    intros y Hy. by apply elem_of_nil in Hy.
  - apply elem_of_cons in Hd as [->|Hd]; [done|].
    destruct (IH Hd Hp) as (pre & d' & post & -> & Hpre & Hd').
    exists (x :: pre), d', post. split_and!; [done| |done].
    intros y [->|Hy]%elem_of_cons; [done|by apply Hpre].
Qed.

(** X12: [add] hands over to the first document, in the order of the
    iteration, whose prefix is the given one up to letter case; later
    documents with that prefix are not asked. *)
Theorem add_first_match (tree : Node) (prefix : string) (w : World)
    (pre post : list Document) (d : Document) :
  Node.__iter__ tree = pre ++ d :: post →
  (∀ x, x ∈ pre → lower (Document.prefix x) ≠ lower prefix) →
  lower (Document.prefix d) = lower prefix →
  Node.add lower Document_add tree prefix w = Document_add d w.
Proof.
  intros Hiter Hpre Hd. unfold Node.add. rewrite Hiter.
  by apply add_for_document_first.
Qed.

(** X13: when no document of the tree has the prefix, letter case
    aside, [add] raises "no matching prefix" with the prefix as given, and
    no document is asked to add an item. *)
Theorem add_no_match (tree : Node) (prefix : string) (w : World) :
  (∀ x, x ∈ Node.__iter__ tree → lower (Document.prefix x) ≠ lower prefix) →
  Node.add lower Document_add tree prefix w =
    (w, Raise (Doorstop (no_matching_prefix prefix))).
Proof.
  unfold Node.add. induction (Node.__iter__ tree) as [|x docs IH]; intros Hno.
  - reflexivity.
  - simpl. rewrite bool_decide_eq_false_2 by (apply Hno; left).
    apply IH. intros y Hy. apply Hno. by right.
Qed.

(** X14: in a tree that [from_list] returned, [add] finds a document for
    the prefix of every handle of the list, in any letter case: it hands
    over to a handle of the list with that prefix. *)
Theorem add_after_from_list (docs : list Document) (t : Node) (d : Document)
    (prefix : string) (w : World) :
  Node.from_list docs = Some (Return t) →
  d ∈ docs → lower prefix = lower (Document.prefix d) →
  ∃ d', d' ∈ docs ∧ lower (Document.prefix d') = lower prefix ∧
        Node.add lower Document_add t prefix w = Document_add d' w.
Proof.
  intros (Hperm & _)%assembled_input Hd Hp.
  rewrite <- Hperm in Hd.
  destruct (first_match_split (Node.__iter__ t) prefix d Hd)
    as (pre & d' & post & Hiter & Hpre & Hd'); [done|].
  exists d'. split_and!; [|done|].
  - rewrite <- Hperm, Hiter. apply elem_of_app. right. left.
  - unfold Node.add. rewrite Hiter. by apply add_for_document_first.
Qed.
End add_properties.

(** ** [edit] *)

Lemma edit_for_document_link docs prefix number item :
  Node.edit_for_document lower docs prefix number = Some item →
  Node.for_document_item lower docs prefix number = Some item.
Proof.
  induction docs as [|d docs IH]; simpl; [done|].
  case_bool_decide; [|done]. by intros ->.
Qed.



Lemma edit_for_document_first pre d post prefix number :
  (∀ x, x ∈ pre → lower (Document.prefix x) ≠ lower prefix) →
  lower (Document.prefix d) = lower prefix →
  Node.edit_for_document lower (pre ++ d :: post) prefix number =
    find (fun item => bool_decide (Item.number item = number)) (Document.items d).
Proof.
  intros Hpre Hd. induction pre as [|x pre IH]; simpl.
  - by rewrite bool_decide_eq_true_2.
  - rewrite bool_decide_eq_false_2 by (apply Hpre; left).
    apply IH. intros y Hy. apply Hpre. by right.
Qed.

Section edit_properties.
Variable split_id : string → outcome (string * Z).
Variables sys_platform os_name : string.

(** X15: when [edit] returns, the ID stands for an item of the tree, the
    very item that the search of [link] finds for it; with [launch] the
    only system call made is [_open] on the path of that item, without
    [launch] none is made. *)
Theorem edit_finds_link_item (tree : Node) (identifier prefix : string)
    (number : Z) (launch : bool) (calls : list system_call) :
  split_id identifier = Return (prefix, number) →
  Node.edit lower split_id sys_platform os_name tree identifier launch
    = (calls, Return tt) →
  ∃ item,
    item_of lower tree prefix number item ∧
    Node.for_document_item lower (Node.__iter__ tree) prefix number = Some item ∧
    calls = if launch then _open sys_platform os_name (Item.path item) else [].
Proof.
  intros Hsplit. unfold Node.edit. rewrite Hsplit.
  destruct (Node.edit_for_document lower (Node.__iter__ tree) prefix number)
    as [item|] eqn:Hfind; [|discriminate].
  intros [= <-]. apply edit_for_document_link in Hfind.
  exists item. split_and!; [|done..]. by apply for_document_item_Some.
Qed.

(** X16: [edit] looks into the first document with the prefix only: when
    that document has no item with the number, [edit] raises "no matching
    ID" and makes no system call, whatever the documents after it
    hold. *)
Theorem edit_first_document_only (tree : Node) (identifier prefix : string)
    (number : Z) (launch : bool) (pre post : list Document) (d : Document) :
  split_id identifier = Return (prefix, number) →
  Node.__iter__ tree = pre ++ d :: post →
  (∀ x, x ∈ pre → lower (Document.prefix x) ≠ lower prefix) →
  lower (Document.prefix d) = lower prefix →
  (∀ item, item ∈ Document.items d → Item.number item ≠ number) →
  Node.edit lower split_id sys_platform os_name tree identifier launch
    = ([], Raise (Doorstop (no_matching_ID identifier))).
Proof.
  intros Hsplit Hiter Hpre Hd Hitems. unfold Node.edit.
  rewrite Hsplit, Hiter, (edit_for_document_first _ _ _ _ _ Hpre Hd).
  destruct (find _ (Document.items d)) as [item|] eqn:Hfind; [|done].
  apply find_some in Hfind as [Hin Hn]. apply bool_decide_eq_true in Hn.
  by destruct (Hitems item); [apply list_elem_of_In|].
Qed.

End edit_properties.

(** ** [link] and letter case *)

Lemma for_document_item_case docs prefix prefix' number :
  lower prefix = lower prefix' →
  Node.for_document_item lower docs prefix number =
  Node.for_document_item lower docs prefix' number.
Proof.
  intros Hcase. induction docs as [|d docs IH]; simpl; [done|].
  by rewrite Hcase, IH.
Qed.

(** X18: [link] resolves IDs without regard to the letter case of their
    prefixes: two calls whose IDs differ in that only return the same pair
    of items and leave the same link sets. *)
Theorem link_ignores_case (split_id : string → outcome (string * Z)) (tree : Node)
    (cid cid' pid pid' : string) (links : gmap nat (gset string))
    (cp cp' pp pp' : string) (cn pn : Z) (child parent : Item)
    (links' : gmap nat (gset string)) :
  split_id cid = Return (cp, cn) → split_id cid' = Return (cp', cn) →
  split_id pid = Return (pp, pn) → split_id pid' = Return (pp', pn) →
  lower cp = lower cp' → lower pp = lower pp' →
  Node.link lower split_id tree cid pid links = (links', Return (child, parent)) →
  Node.link lower split_id tree cid' pid' links = (links', Return (child, parent)).
Proof.
  intros Hcid Hcid' Hpid Hpid' Hc Hp. unfold Node.link.
  rewrite Hcid, Hcid', (for_document_item_case _ cp cp' cn Hc).
  destruct (Node.for_document_item lower (Node.__iter__ tree) cp' cn); [|done].
  rewrite Hpid, Hpid', (for_document_item_case _ pp pp' pn Hp).
  by destruct (Node.for_document_item lower (Node.__iter__ tree) pp' pn).
Qed.
End letter_case.

(** ** [__str__] *)

Lemma string_app_nonempty (s t : string) : s ≠ EmptyString → (s ++ t)%string ≠ EmptyString.
Proof. by destruct s. Qed.

Section str_properties.
Variable Document_str : Document → string.

Lemma str_unfold d cs :
  Node.__str__ Document_str (mkNode d cs) =
    match String.concat ", " (map (Node.__str__ Document_str) cs) with
    | EmptyString => Document_str d
    | children =>
        (Document_str d ++ " <- [ " ++ children ++ " ]")%string
    end.
Proof. simpl. by destruct (String.concat _ _). Qed.

Lemma str_nonempty n :
  (∀ d, Document_str d ≠ EmptyString) →
  Node.__str__ Document_str n ≠ EmptyString.
Proof.
  intros Hdoc. destruct n as [d cs]. rewrite str_unfold.
  destruct (String.concat _ _); [done|]. by apply string_app_nonempty.
Qed.

(** X19: a node without children is written as its document alone; when
    no document is written as the empty string, a node with children is
    written as its document, [" <- [ "], the strings of the children in
    order with [", "] between them, and [" ]"]. *)
Theorem str_children (n : Node) :
  (children n = [] → Node.__str__ Document_str n = Document_str (document n)) ∧
  ((∀ d, Document_str d ≠ EmptyString) → children n ≠ [] →
   Node.__str__ Document_str n =
     (Document_str (document n) ++ " <- [ " ++
      String.concat ", " (map (Node.__str__ Document_str) (children n)) ++ " ]")%string).
Proof.
  destruct n as [d cs]. rewrite str_unfold. simpl. split.
  - by intros ->.
  - intros Hdoc Hcs. destruct cs as [|c cs]; [done|].
    assert (String.concat ", " (map (Node.__str__ Document_str) (c :: cs))
            ≠ EmptyString) as Hne.
    { simpl. pose proof (str_nonempty c Hdoc) as Hc.
      destruct (map _ cs); [done|]. by apply string_app_nonempty. }
    by destruct (String.concat _ _).
Qed.
End str_properties.

(** ** [build] *)

Section build_properties.
Variable vcs_find_root : string → outcome string.
Variable os_walk : string → list (string * list string).
Variable os_path_join : string → string → string.
Variable Document_init : string → string → outcome Document.
Variable Document_skip : Document → bool.

Lemma add_document_from_path_loaded path root documents :
  loads Document_init root path →
  _add_document_from_path Document_init Document_skip path root documents =
    Return (documents ++ omap (loaded Document_init Document_skip root) [path]).
Proof.
  intros Hloads. unfold _add_document_from_path, loaded. simpl.
  destruct (Document_init path root) as [d|e] eqn:Hinit.
  - destruct (Document_skip d); by rewrite ?app_nil_r.
  - destruct (Hloads e Hinit) as [error ->]. by rewrite app_nil_r.
Qed.

Lemma for_dirname_loaded dirpath dirnames root documents :
  (∀ dirname, dirname ∈ dirnames → loads Document_init root (os_path_join dirpath dirname)) →
  for_dirname os_path_join Document_init Document_skip dirpath dirnames root documents =
    Return (documents ++
            omap (loaded Document_init Document_skip root)
                 (map (os_path_join dirpath) dirnames)).
Proof.
  revert documents. induction dirnames as [|dirname rest IH]; intros documents Hloads.
  - simpl. by rewrite app_nil_r.
  - cbn [for_dirname map].
    rewrite add_document_from_path_loaded by (apply Hloads; left).
    rewrite IH by (intros x Hx; apply Hloads; by right).
    rewrite <- app_assoc. f_equal. f_equal.
    by rewrite <- omap_app.
Qed.

Lemma for_dirpath_loaded walk root documents :
  (∀ path,
     path ∈ concat (map (fun entry => map (os_path_join entry.1) entry.2) walk) →
     loads Document_init root path) →
  for_dirpath os_path_join Document_init Document_skip walk root documents =
    Return (documents ++
            omap (loaded Document_init Document_skip root)
                 (concat (map (fun entry => map (os_path_join entry.1) entry.2) walk))).
Proof.
  revert documents. induction walk as [|[dirpath dirnames] rest IH];
    intros documents Hloads.
  - simpl. by rewrite app_nil_r.
  - cbn [for_dirpath map concat fst snd] in *.
    rewrite for_dirname_loaded.
    + rewrite IH.
      * by rewrite <- app_assoc, <- omap_app.
      * intros path Hpath. apply Hloads, elem_of_app. by right.
    + intros dirname Hdirname. apply Hloads, elem_of_app. left.
      by apply list_elem_of_In, in_map, list_elem_of_In.
Qed.

Lemma build_from_list cwd root :
  vcs_find_root cwd = Return root →
  (∀ path, path ∈ candidate_paths os_walk os_path_join root → loads Document_init root path) →
  build vcs_find_root os_walk os_path_join Document_init Document_skip cwd =
    Node.from_list
      (omap (loaded Document_init Document_skip root)
            (candidate_paths os_walk os_path_join root)).
Proof.
  intros Hroot Hloads. unfold build, candidate_paths in *. rewrite Hroot.
  rewrite add_document_from_path_loaded by (apply Hloads; left).
  rewrite for_dirpath_loaded by (intros path Hpath; apply Hloads; by right).
  rewrite app_nil_l, <- omap_app. done.
Qed.

(** X20: [build] assembles, with [from_list], the documents that load
    and are not to be skipped, in the order of their paths: the root of
    the working copy first, then the directories in the order in which
    [os.walk] lists them. *)
Theorem build_collects (cwd root : string) :
  vcs_find_root cwd = Return root →
  (∀ path, path ∈ candidate_paths os_walk os_path_join root → loads Document_init root path) →
  build vcs_find_root os_walk os_path_join Document_init Document_skip cwd =
    Node.from_list
      (omap (loaded Document_init Document_skip root)
            (candidate_paths os_walk os_path_join root)).
Proof.
  intros Hroot Hloads. unfold build. rewrite Hroot.
  assert (loads Document_init root root) as Hload_root by (apply Hloads; left).
  rewrite (add_document_from_path_loaded root root [] Hload_root).
  rewrite for_dirpath_loaded.
  - unfold candidate_paths. by rewrite app_nil_l, <- omap_app.
  - intros path Hpath. apply Hloads. by right.
Qed.

(** X21: in a working copy where every directory either holds no
    document or holds one to be skipped, [build] raises "no root
    document". *)
Theorem build_no_documents (cwd root : string) :
  vcs_find_root cwd = Return root →
  (∀ path, path ∈ candidate_paths os_walk os_path_join root →
     (∃ error, Document_init path root = Raise (Doorstop error)) ∨
     (∃ d, Document_init path root = Return d ∧ Document_skip d = true)) →
  build vcs_find_root os_walk os_path_join Document_init Document_skip cwd =
    Some (Raise (Doorstop no_root_document)).
Proof.
  intros Hroot Hnone. rewrite (build_from_list cwd root Hroot).
  - assert (omap (loaded Document_init Document_skip root)
                 (candidate_paths os_walk os_path_join root) = []) as ->; [|done].
    induction (candidate_paths os_walk os_path_join root) as [|path paths IH];
      [done|].
    simpl. unfold loaded at 1.
    destruct (Hnone path) as [[error ->]|(d & -> & ->)]; [left|..];
      apply IH; intros x Hx; apply Hnone; by right.
  - intros path Hpath e He.
    destruct (Hnone path Hpath) as [[error Herr]|(d & Hd & _)]; [|congruence].
    exists error. congruence.
Qed.

(** X22: every document of a tree that [build] returns was loaded from
    the root of the working copy or from a directory that [os.walk]
    lists, and is not one to be skipped; the size of the tree is the
    number of such paths. *)
Theorem build_tree_documents (cwd root : string) (t : Node) :
  vcs_find_root cwd = Return root →
  (∀ path, path ∈ candidate_paths os_walk os_path_join root → loads Document_init root path) →
  build vcs_find_root os_walk os_path_join Document_init Document_skip cwd =
    Some (Return t) →
  (∀ d, d ∈ Node.__iter__ t →
        Document_skip d = false ∧
        ∃ path, path ∈ candidate_paths os_walk os_path_join root ∧
                Document_init path root = Return d) ∧
  Node.__len__ t =
    length (omap (loaded Document_init Document_skip root)
                 (candidate_paths os_walk os_path_join root)).
Proof.
  intros Hroot Hloads. rewrite (build_from_list cwd root Hroot Hloads).
  intros (Hperm & _)%assembled_input. split.
  - intros d Hd. rewrite Hperm in Hd.
    apply list_elem_of_omap in Hd as (path & Hpath & Hloaded).
    unfold loaded in Hloaded.
    destruct (Document_init path root) as [d'|e] eqn:Hinit; [|done].
    destruct (Document_skip d') eqn:Hskip; [done|].
    injection Hloaded as <-. split; [done|]. by exists path.
  - by rewrite len_length_iter, Hperm.
Qed.
End build_properties.

(** ** Assembling the iteration of a tree *)

Lemma place_not_placeable c doc :
  ¬ placeable c doc → Node.place c doc = (c, inl (no_parent_for doc)).
Proof.
  intros Hno. destruct (Node.place c doc) as [c' [e|[]]] eqn:Hplace.
  - by apply place_fail in Hplace as (-> & -> & _).
  - destruct Hno. apply place_ok in Hplace as (_ & _ & p & Hp & Hpar & _).
    exists (Document.prefix p). split; [done|]. by apply elem_of_prefixes.
Qed.

Lemma place_for_child_app doc left cs :
  (∀ c, c ∈ left → ¬ placeable c doc) →
  place_for_child doc (left ++ cs) =
    let (cs', r) := place_for_child doc cs in (left ++ cs', r).
Proof.
  intros Hleft. induction left as [|c left IH]; simpl app.
  - by destruct (place_for_child doc cs).
  - rewrite place_for_child_cons, place_not_placeable by (apply Hleft; left).
    rewrite IH by (intros x Hx; apply Hleft; by right).
    by destruct (place_for_child doc cs).
Qed.

Lemma place_plug_frame frame n doc :
  Document.parent doc ≠ Some (Document.prefix frame.1) →
  (∀ c, c ∈ frame.2 → ¬ placeable c doc) →
  Node.place (plug_frame frame n) doc =
    let (n', r) := Node.place n doc in (plug_frame frame n', r).
Proof.
  intros Hd Hleft. unfold plug_frame. rewrite place_unfold.
  apply parent_is_false in Hd. rewrite Hd.
  rewrite place_for_child_app by done. rewrite place_for_child_cons.
  destruct (Node.place n doc) as [n' [e|[]]] eqn:Hplace; [|done].
  simpl. by apply place_fail in Hplace as (-> & -> & _).
Qed.

Lemma place_plug frames n doc :
  (∀ x, x ∈ frame_documents frames →
        Document.parent doc ≠ Some (Document.prefix x)) →
  Node.place (plug frames n) doc =
    let (n', r) := Node.place n doc in (plug frames n', r).
Proof.
  revert n. induction frames as [|frame frames IH]; intros n Hno; simpl.
  - by destruct (Node.place n doc).
  - unfold frame_documents in Hno. simpl in Hno.
    rewrite IH by (intros x Hx; apply Hno; right; apply elem_of_app; by right).
    rewrite place_plug_frame.
    + by destruct (Node.place n doc).
    + apply Hno. left.
    + intros c Hc (p & Hp & Hin). unfold prefixes in Hin.
      apply list_elem_of_In, in_map_iff in Hin as (x & <- & Hx%list_elem_of_In).
      apply (Hno x); [|done]. right. apply elem_of_app. left.
      apply list_elem_of_In, in_concat. exists (Node.__iter__ c).
      split; [|by apply list_elem_of_In]. by apply in_map, list_elem_of_In.
Qed.

Lemma place_each_app tree l1 l2 :
  place_each tree (l1 ++ l2) =
    match place_each tree l1 with
    | Some tree' => place_each tree' l2
    | None => None
    end.
Proof.
  revert tree. induction l1 as [|doc l1 IH]; intros tree; simpl; [done|].
  by destruct (Node.place tree doc) as [tree' [e|[]]].
Qed.

Lemma for_doc_place_each l tree tree' :
  place_each tree l = Some tree' →
  Node.for_doc l tree l = Return (tree', []).
Proof.
  revert tree. induction l as [|doc l IH]; intros tree; simpl.
  - by intros [= ->].
  - destruct (Node.place tree doc) as [tree1 [e|[]]]; [done|].
    rewrite decide_True by done. apply IH.
Qed.

Set Warnings "-clear-no-such-hyp".

Lemma NoDup_rearrange {A} (a : A) (B X R F : list A) :
  NoDup (a :: (B ++ X ++ R) ++ F) → NoDup (X ++ (a :: B) ++ F).
Proof.
  repeat (rewrite NoDup_cons || rewrite NoDup_app).
  repeat (setoid_rewrite elem_of_app || setoid_rewrite elem_of_cons).
  naive_solver.
Qed.

Lemma well_linked_child d cs c :
  well_linked (mkNode d cs) → c ∈ cs →
  Document.parent (document c) = Some (Document.prefix d) ∧ well_linked c.
Proof.
  intros Hwl Hc. split.
  - apply Hwl. by apply elem_of_children_edge.
  - intros p x Hpx. apply Hwl. by eapply elem_of_children_edges.
Qed.

Lemma place_each_rebuild s :
  ∀ frames,
    well_linked s →
    NoDup (prefixes s ++ map Document.prefix (frame_documents frames)) →
    place_each (plug frames (Node.__init__ (document s))) (tail (Node.__iter__ s))
      = Some (plug frames s).
Proof.
  induction s as [d cs IH] using Node_ind_Forall. intros frames Hwl Hnodup.
  rewrite iter_unfold. simpl tail. simpl document. unfold Node.__init__.
  assert (∀ done,
            well_linked (mkNode d (done ++ cs)) →
            NoDup (prefixes (mkNode d (done ++ cs)) ++
                   map Document.prefix (frame_documents frames)) →
            place_each (plug frames (mkNode d done)) (concat (map Node.__iter__ cs))
              = Some (plug frames (mkNode d (done ++ cs)))) as Hloop.
  { clear Hwl Hnodup.
    induction IH as [|c cs Hc _ IHcs]; intros done Hwl Hnodup.
    - simpl. by rewrite app_nil_r.
    - destruct (well_linked_child d (done ++ c :: cs) c Hwl) as [Hpar Hwlc].
      { apply elem_of_app. right. left. }
      unfold prefixes in Hnodup. rewrite iter_unfold in Hnodup.
      rewrite map_app, concat_app in Hnodup. simpl in Hnodup.
      rewrite !map_app in Hnodup.
      simpl concat. rewrite (iter_head c) at 1. simpl app.
      cbn [place_each]. rewrite place_plug.
      + rewrite place_unfold.
        rewrite (proj2 (parent_is_true _ _) Hpar).
        change (plug frames (mkNode d (done ++ [Node.__init__ (document c)])))
          with (plug ((d, done) :: frames) (Node.__init__ (document c))).
        rewrite place_each_app, (Hc ((d, done) :: frames) Hwlc).
        * change (plug ((d, done) :: frames) c)
            with (plug frames (mkNode d (done ++ [c]))).
          rewrite (IHcs (done ++ [c])); rewrite <- ?app_assoc; [done..| ].
          unfold prefixes. rewrite iter_unfold, map_app, concat_app. simpl.
          by rewrite !map_app.
        * unfold frame_documents. simpl. fold (frame_documents frames).
          rewrite !map_app. simpl. unfold prefixes.
          exact (NoDup_rearrange _ _ _ _ _ Hnodup).
      + intros x Hx. rewrite Hpar. intros [= Heq].
        apply NoDup_cons in Hnodup as [Hnotin _]. apply Hnotin.
        rewrite Heq. apply elem_of_app. right.
        by apply list_elem_of_In, in_map, list_elem_of_In. }
  by apply (Hloop []).
Qed.

Lemma from_list_place_each d tl t :
  is_root d → place_each (Node.__init__ d) tl = Some t →
  Node.from_list (d :: tl) = Some (Return t).
Proof.
  intros Hroot Heach.
  unfold Node.from_list, Node.from_list_fuel, Node.find_root. simpl find.
  rewrite bool_decide_eq_true_2 by done. simpl list_remove.
  rewrite decide_True by done.
  destruct tl as [|u rest].
  - simpl in *. by injection Heach as <-.
  - simpl length. rewrite while_unplaced_cons.
    by rewrite (for_doc_place_each _ _ _ Heach).
Qed.

(** X23: a tree whose root document has no parent prefix, in which each
    child document names the prefix of the document above it and no
    prefix occurs twice, is what [from_list] returns for the list of its
    documents in the order of the iteration. *)
Theorem from_list_iter (t : Node) :
  is_root (document t) → well_linked t → NoDup (prefixes t) →
  Node.from_list (Node.__iter__ t) = Some (Return t).
Proof.
  intros Hroot Hwl Hnodup.
  pose proof (place_each_rebuild t [] Hwl) as Hrebuild. simpl in Hrebuild.
  rewrite app_nil_r in Hrebuild. specialize (Hrebuild Hnodup).
  rewrite (iter_head t) at 1. by apply from_list_place_each.
Qed.

(** X24: assembling is idempotent on lists without a repeated prefix:
    the tree that [from_list] returns for such a list is again what
    [from_list] returns for the iteration of that tree. *)
Theorem from_list_idempotent (docs : list Document) (t : Node) :
  NoDup (map Document.prefix docs) →
  Node.from_list docs = Some (Return t) →
  Node.from_list (Node.__iter__ t) = Some (Return t).
Proof.
  intros Hnodup (Hperm & Hwl & Hroot & _)%assembled_input.
  assert (NoDup (prefixes t ++ map Document.prefix (frame_documents []))) as Hpre.
  { simpl. rewrite app_nil_r. unfold prefixes.
    assert (map Document.prefix (Node.__iter__ t) ≡ₚ map Document.prefix docs)
      as Hmap by (by apply Permutation_map).
    by rewrite Hmap. }
  pose proof (place_each_rebuild t [] Hwl Hpre) as Hrebuild. simpl in Hrebuild.
  rewrite (iter_head t) at 1. by apply from_list_place_each.
Qed.

(** X25: whether and how [from_list] fails does not depend on the order
    of the list: on a permutation of a list for which it raises "no root
    document" it raises the same, and on a permutation of a list for which
    it raises "unplaced document" it raises "unplaced document" too, for a
    handle that may be another one. *)
Theorem from_list_Permutation_failure (docs docs' : list Document) :
  docs ≡ₚ docs' →
  (Node.from_list docs = Some (Raise (Doorstop no_root_document)) →
   Node.from_list docs' = Some (Raise (Doorstop no_root_document))) ∧
  (∀ u, Node.from_list docs = Some (Raise (Doorstop (unplaced_document u))) →
        ∃ u', u' ∈ docs' ∧
              Node.from_list docs' = Some (Raise (Doorstop (unplaced_document u')))).
Proof.
  intros Hperm.
  assert (Node.find_root docs = None ↔ Node.find_root docs' = None) as Hroots.
  { rewrite !find_root_None. by setoid_rewrite Hperm. }
  split.
  - intros Heq.
    destruct (from_list_cases docs)
      as [[Hnone _]|[(t & _ & Heq')|(t & u & rest & _ & _ & Heq')]];
      [|congruence..].
    apply Hroots in Hnone. unfold Node.from_list, Node.from_list_fuel.
    by rewrite Hnone.
  - intros u Heq.
    destruct (from_list_cases docs')
      as [[Hnone _]|[(t' & _ & Heq')|(t' & u' & rest' & Hstate & _ & Heq')]].
    + apply Hroots in Hnone. unfold Node.from_list, Node.from_list_fuel in Heq.
      rewrite Hnone in Heq. discriminate.
    + apply assembled_input in Heq' as (_ & _ & _ & Hone & Hall).
      destruct (from_list_grounded docs) as (t & _ & Ht).
      * unfold one_root in *. by rewrite Hperm.
      * intros d Hd. apply (grounded_Permutation docs'); [done|].
        apply Hall. by rewrite <- Hperm.
      * congruence.
    + exists u'. split; [|done].
      apply loop_state_inv in Hstate as (_ & Hperm' & _).
      rewrite <- Hperm'. apply elem_of_app. right. left.
Qed.

(** ** The further properties on the example data *)

Lemma place_succeeds_iff_witness :
  ∃ tree', Node.place tree_REQ_HLT LLT = (tree', inr tt).
Proof.
  apply (proj1 (place_succeeds_iff tree_REQ_HLT LLT)).
  exists HLT. split; [compute_done|reflexivity].
Defined.

Lemma place_without_parent_witness :
  Node.place tree_REQ_HLT REQ = (tree_REQ_HLT, inl (no_parent_for REQ)).
Proof. apply place_without_parent. reflexivity. Defined.

Lemma place_first_match_witness :
  ∃ pre p post,
    Node.__iter__ MoreExamples.tree_two_REQ = pre ++ p :: post ∧
    Document.parent HLT = Some (Document.prefix p) ∧
    (∀ x, x ∈ pre → Document.parent HLT ≠ Some (Document.prefix x)) ∧
    parent_child (mkNode MoreExamples.REQ_first
                    [mkNode MoreExamples.REQ_other []; mkNode HLT []])
      ≡ₚ (p, HLT) :: parent_child MoreExamples.tree_two_REQ.
Proof. apply (place_first_match MoreExamples.tree_two_REQ _ HLT). reflexivity. Defined.

Lemma place_inserts_witness :
  ∃ l1 l2,
    Node.__iter__ tree_REQ_HLT = document tree_REQ_HLT :: l1 ++ l2 ∧
    Node.__iter__ tree_REQ_HLT_LLT = document tree_REQ_HLT :: l1 ++ LLT :: l2 ∧
    Node.__len__ tree_REQ_HLT_LLT = S (Node.__len__ tree_REQ_HLT).
Proof. apply (place_inserts tree_REQ_HLT tree_REQ_HLT_LLT LLT). reflexivity. Defined.

Lemma from_list_succeeds_iff_witness :
  one_root [HLT; REQ] ∧ ∀ d, d ∈ [HLT; REQ] → grounded [HLT; REQ] d.
Proof.
  apply (proj1 (from_list_succeeds_iff [HLT; REQ])).
  exists tree_REQ_HLT. reflexivity.
Defined.

Lemma from_list_keeps_documents_witness :
  Node.__iter__ tree_REQ_HLT_LLT ≡ₚ [LLT; HLT; REQ] ∧
  Node.__len__ tree_REQ_HLT_LLT = length [LLT; HLT; REQ] ∧
  (NoDup [LLT; HLT; REQ] → NoDup (Node.__iter__ tree_REQ_HLT_LLT)) ∧
  (NoDup (map Document.prefix [LLT; HLT; REQ]) → NoDup (prefixes tree_REQ_HLT_LLT)).
Proof. apply from_list_keeps_documents. reflexivity. Defined.

Lemma from_list_two_roots_rejected_witness :
  ∃ u, u ∈ [REQ; HLT; REQ] ∧
       Node.from_list [REQ; HLT; REQ] =
         Some (Raise (Doorstop (unplaced_document u))).
Proof. apply from_list_two_roots_rejected. vm_compute. lia. Defined.

Lemma check_calls_in_order_witness :
  (∃ rest, Node.__iter__ tree_with_EXT = [REQ; HLT; EXT] ++ rest) ∧
  length [REQ; HLT; EXT] ≤ Node.__len__ tree_with_EXT.
Proof.
  destruct (check_calls_in_order Document_check tree_with_EXT 0 3 [REQ; HLT; EXT]
              (Raise (Doorstop (external_error "EXT: invalid"))) eq_refl)
    as (Hprefix & Hlen & _).
  by split.
Defined.

Lemma new_places_witness :
  ∃ tree',
    Node.new Document_new (Node.__init__ REQ) "/proj/tst" "TST" (Some "REQ") None ∅
      = (tree', {["/proj/tst"; "/proj/tst/.doorstop.yml"]} ∪ ∅,
         Return (Document.mk "/proj/tst" "/proj" "TST" (Some "REQ") [])) ∧
    Node.__len__ tree' = 2.
Proof.
  destruct (new_places Document_new (Node.__init__ REQ) "/proj/tst" "TST"
              (Some "REQ") None ∅ _ _ REQ eq_refl)
    as (tree' & Hnew & _ & Hlen & _); [compute_done|reflexivity|].
  exists tree'. split; [exact Hnew|exact Hlen].
Defined.


Lemma add_first_match_witness :
  Node.add lower_on_ascii MoreExamples.Document_add MoreExamples.tree_two_REQ "Req" 7 =
    MoreExamples.Document_add MoreExamples.REQ_first 7.
Proof.
  apply (add_first_match lower_on_ascii _ _ _ _ [] [MoreExamples.REQ_other]); [reflexivity| |reflexivity].
  intros x Hx. by apply elem_of_nil in Hx.
Defined.

Lemma add_no_match_witness :
  Node.add lower_on_ascii MoreExamples.Document_add tree_REQ_HLT "LLT" 7 =
    (7, Raise (Doorstop (no_matching_prefix "LLT"))).
Proof.
  apply add_no_match. intros x Hx%list_elem_of_In. simpl in Hx.
  destruct Hx as [<-|[<-|[]]]; discriminate.
Defined.

Lemma add_after_from_list_witness :
  ∃ d', d' ∈ [HLT; REQ] ∧ lower_on_ascii (Document.prefix d') = lower_on_ascii "hlt" ∧
        Node.add lower_on_ascii MoreExamples.Document_add tree_REQ_HLT "hlt" 7 =
          MoreExamples.Document_add d' 7.
Proof.
  apply (add_after_from_list lower_on_ascii _ [HLT; REQ] tree_REQ_HLT HLT);
    [reflexivity|compute_done|reflexivity].
Defined.

Lemma edit_finds_link_item_witness :
  ∃ item,
    item_of lower_on_ascii tree_REQ_HLT "hlt" 1 item ∧
    Node.for_document_item lower_on_ascii (Node.__iter__ tree_REQ_HLT) "hlt" 1 = Some item ∧
    [subprocess_call ["open"; "/proj/hlt/HLT001.yml"]] =
      (if true then _open "darwin" "posix" (Item.path item) else []).
Proof.
  apply (edit_finds_link_item lower_on_ascii split_id "darwin" "posix" tree_REQ_HLT "hlt1");
    reflexivity.
Defined.

Lemma edit_first_document_only_witness :
  Node.edit lower_on_ascii split_id "linux" "posix" MoreExamples.tree_two_REQ "REQ2" true =
    ([], Raise (Doorstop (no_matching_ID "REQ2"))) ∧
  resolvable lower_on_ascii MoreExamples.tree_two_REQ "REQ" 2.
Proof.
  split.
  - apply (edit_first_document_only lower_on_ascii split_id "linux" "posix" _ "REQ2" "REQ" 2 true
             [] [MoreExamples.REQ_other] MoreExamples.REQ_first);
      [reflexivity..| |reflexivity|].
    + intros x Hx. by apply elem_of_nil in Hx.
    + intros item Hitem%list_elem_of_In. simpl in Hitem.
      destruct Hitem as [<-|[]]. discriminate.
  - exists (Item.mk 4 "/proj/reqs2/req002.yml" "req002" 2), MoreExamples.REQ_other.
    split_and!; [compute_done|reflexivity|compute_done|reflexivity].
Defined.


Lemma link_ignores_case_witness :
  Node.link lower_on_ascii split_id tree_REQ_HLT "hlt1" "req2" ∅ =
    (Item.add_link HLT001 "REQ002" ∅, Return (HLT001, REQ002)).
Proof.
  apply (link_ignores_case lower_on_ascii split_id tree_REQ_HLT "HLT1" "hlt1" "REQ2" "req2" ∅
           "HLT" "hlt" "REQ" "req" 1 2); reflexivity.
Defined.

Lemma str_children_witness :
  Node.__str__ MoreExamples.Document_str tree_REQ_HLT =
    "REQ (@/proj/reqs) <- [ HLT (@/proj/hlt) ]".
Proof.
  destruct (str_children MoreExamples.Document_str tree_REQ_HLT) as [_ Hchildren].
  rewrite Hchildren; [reflexivity| |done].
  intros d. unfold MoreExamples.Document_str. by destruct (Document.prefix d).
Defined.

Lemma loads_Document_init root path :
  loads MoreExamples.Document_init root path.
Proof.
  intros e. unfold MoreExamples.Document_init.
  repeat case_bool_decide; try discriminate. intros [= <-]. by eexists.
Defined.

Lemma build_collects_witness :
  build MoreExamples.vcs_find_root MoreExamples.os_walk MoreExamples.os_path_join
        MoreExamples.Document_init MoreExamples.Document_skip "/proj/hlt" =
    Node.from_list
      [Document.mk "/proj" "/proj" "REQ" None [];
       Document.mk "/proj/hlt" "/proj" "HLT" (Some "REQ") []].
Proof.
  rewrite (build_collects _ _ _ _ _ "/proj/hlt" "/proj"); [reflexivity..|].
  intros path _. apply loads_Document_init.
Defined.

Lemma build_no_documents_witness :
  build MoreExamples.vcs_find_root MoreExamples.os_walk MoreExamples.os_path_join
        MoreExamples.Document_init_none MoreExamples.Document_skip "/proj" =
    Some (Raise (Doorstop no_root_document)).
Proof.
  apply (build_no_documents _ _ _ _ _ "/proj" "/proj"); [reflexivity|].
  intros path _. left. by eexists.
Defined.

Lemma build_tree_documents_witness :
  MoreExamples.Document_skip
    (Document.mk "/proj/hlt" "/proj" "HLT" (Some "REQ") []) = false ∧
  ∃ path,
    path ∈ candidate_paths MoreExamples.os_walk MoreExamples.os_path_join "/proj" ∧
    MoreExamples.Document_init path "/proj" =
      Return (Document.mk "/proj/hlt" "/proj" "HLT" (Some "REQ") []).
Proof.
  destruct (build_tree_documents MoreExamples.vcs_find_root MoreExamples.os_walk
              MoreExamples.os_path_join MoreExamples.Document_init
              MoreExamples.Document_skip "/proj/hlt" "/proj" _ eq_refl
              (fun path _ => loads_Document_init "/proj" path) eq_refl)
    as [Hdocs _].
  apply Hdocs. compute_done.
Defined.

Lemma well_linked_tree_REQ_HLT_LLT : well_linked tree_REQ_HLT_LLT.
Proof.
  intros p c Hpc%list_elem_of_In. simpl in Hpc.
  by destruct Hpc as [[= <- <-]|[[= <- <-]|[]]].
Defined.

Lemma from_list_iter_witness :
  Node.from_list (Node.__iter__ tree_REQ_HLT_LLT) = Some (Return tree_REQ_HLT_LLT).
Proof.
  apply from_list_iter;
    [reflexivity|apply well_linked_tree_REQ_HLT_LLT|compute_done].
Defined.

Lemma from_list_idempotent_witness :
  Node.from_list (Node.__iter__ tree_REQ_HLT_LLT) = Some (Return tree_REQ_HLT_LLT).
Proof.
  apply (from_list_idempotent [LLT; HLT; REQ]); [compute_done|reflexivity].
Defined.

Lemma from_list_Permutation_failure_witness :
  Node.from_list [HLT; LLT] = Some (Raise (Doorstop no_root_document)) ∧
  ∃ u', u' ∈ [EXT; HLT; REQ] ∧
        Node.from_list [EXT; HLT; REQ] =
          Some (Raise (Doorstop (unplaced_document u'))).
Proof.
  split.
  - apply (proj1 (from_list_Permutation_failure [LLT; HLT] [HLT; LLT]
                    (Permutation_rev [LLT; HLT]))).
    reflexivity.
  - apply (proj2 (from_list_Permutation_failure [REQ; HLT; EXT] [EXT; HLT; REQ]
                    (Permutation_rev [REQ; HLT; EXT])) EXT).
    reflexivity.
Defined.
